(** * daggerpool: the result model of the DAG worker pool

    A shallow embedding of [pkg/workerpool/job_result.go]: the per-job
    status record, the aggregate [DAGResult] map and the graph-aware views
    computed from it ([Blockers], [Subtree], [Frontiers],
    [BoundarySubtrees]), followed by the properties the specification
    states about them. *)

From stdpp Require Import base option list sets gmap strings sorting relations.

Set Warnings "-clear-no-such-hyp".

(** ** Data model *)

(** [type JobStatus int] with its five [iota] constants. *)
Inductive JobStatus : Set :=
  | JobStatusUnknown
  | JobStatusSuccess
  | JobStatusInProgress
  | JobStatusSkipped
  | JobStatusFailed.

Global Instance JobStatus_eq_dec : EqDecision JobStatus.
Proof. solve_decision. Defined.

Definition timeoutError : string := "timeout_error".

(** A non-nil Go [error] is represented by its message; the nil error is
    [None] in a field of type [option error]. *)
Definition error : Set := string.

(** [time.Duration] is a count of nanoseconds. *)
Definition Duration : Set := Z.

Module JobResult.
Record t : Set := Make { Name : string; Status : JobStatus; Error : option error }.

Definition IsFailed (j : t) : bool := bool_decide (Status j = JobStatusFailed).
Definition IsSkipped (j : t) : bool := bool_decide (Status j = JobStatusSkipped).
Definition IsInProgress (j : t) : bool := bool_decide (Status j = JobStatusInProgress).

Definition Fail (err : option error) (j : t) : t := Make (Name j) JobStatusFailed err.
End JobResult.

Abbreviation JobResult := JobResult.t.

(** [type DAG map[string][]string], as the package declares it (README,
    "What a DAG means in this project"): job name to the names it depends
    on. *)
Abbreviation DAG := (gmap string (list string)).

(** [type DAGResult map[string]*JobResult].  A map value is a pointer, so
    it may be nil: [None] is the nil pointer, [Some j] a pointer to [j]. *)
Abbreviation DAGResult := (gmap string (option JobResult)).

(** Reading a field or calling a method through a nil pointer panics. *)
Inductive outcome (A : Type) : Type :=
  | Returns (a : A)
  | Panics.
Global Arguments Returns {A} a.
Global Arguments Panics {A}.

(** Go leaves the order of [for k, v := range m] unspecified, and it may
    differ from one loop to the next.  A [MapOrder] fixes, for every loop
    (identified by the source line of its [range]) and every map, one
    enumeration of the entries; results are proved for all of them. *)
Record MapOrder : Type := {
  range : ∀ V : Type, nat → gmap string V → list (string * V);
  range_perm : ∀ V (site : nat) (m : gmap string V), range V site m ≡ₚ map_to_list m
}.
Global Arguments range _ {V} site m.

(** One such order: the enumeration of the map library. *)
Definition canonical_order : MapOrder :=
  {| range := λ V _ m, map_to_list m; range_perm := λ V _ m, reflexivity _ |}.

(** Another: the same enumeration backwards. *)
Definition reversed_order : MapOrder :=
  {| range := λ V _ m, reverse (map_to_list m);
     range_perm := λ V _ m, reverse_Permutation (map_to_list m) |}.

(** [sort.Strings]: ascending byte-wise order.  The sorted arrangement of
    a list of strings is unique ([sort_strings_unique]), so the algorithm
    behind it does not matter. *)
Definition sort_strings (l : list string) : list string := merge_sort String.le l.

Module FrontierItem.
Record t : Type := Make {
  Job : string;
  Status : JobStatus;
  BlockedBy : list string;
  Subtree : list string;
  dagResult : DAGResult
}.
Definition IsBlocked (f : t) : bool := negb (bool_decide (length (BlockedBy f) = 0)).
End FrontierItem.

Abbreviation FrontierItem := FrontierItem.t.
Abbreviation Frontiers_t := (list FrontierItem).

(** ** Operations on [DAGResult] *)

Definition newDAGResult (dag : DAG) : DAGResult :=
  map_imap (λ jobName _, Some (Some (JobResult.Make jobName JobStatusUnknown None))) dag.

Section timeout.
(** [fmt.Errorf("timeout after %v", deadline.Seconds())]: the rendering
    of the seconds belongs to the Go library and is left abstract. *)
Variable format_seconds : Duration → string.

Definition TimeoutError (deadline : Duration) (r : DAGResult) : DAGResult :=
  <[timeoutError := Some (JobResult.Make "" JobStatusFailed
                            (Some ("timeout after " +:+ format_seconds deadline)))]> r.
End timeout.

Definition TimeoutErrorKey : string := timeoutError.

Fixpoint FirstError_loop (l : list (string * option JobResult)) : outcome (option error) :=
  match l with
  | [] => Returns None
  | (_, None) :: _ => Panics
  | (_, Some jobResult) :: l' =>
      match JobResult.Error jobResult with
      | Some e => Returns (Some e)
      | None => FirstError_loop l'
      end
  end.

Definition FirstError (o : MapOrder) (r : DAGResult) : outcome (option error) :=
  FirstError_loop (range o 101 r).

Fixpoint IsFailed_loop (l : list (string * option JobResult)) : outcome bool :=
  match l with
  | [] => Returns false
  | (_, None) :: _ => Panics
  | (_, Some jobResult) :: l' =>
      if decide (JobResult.Status jobResult = JobStatusFailed) then Returns true
      else IsFailed_loop l'
  end.

(** [IsFailed] says result has Error(s). *)
Definition IsFailed (o : MapOrder) (r : DAGResult) : outcome bool :=
  IsFailed_loop (range o 111 r).

Definition IsTimeouted (r : DAGResult) : bool :=
  match r !! timeoutError with Some _ => true | None => false end.

Definition orderedJobs (o : MapOrder) (r : DAGResult) : list string :=
  sort_strings ((range o 280 r).*1).

(** [r[key]] for a [*JobResult] map: an absent key reads as the nil pointer. *)
Definition index (r : DAGResult) (key : string) : option JobResult :=
  default None (r !! key).

Fixpoint IsReady_loop (r : DAGResult) (keys : list string) : outcome bool :=
  match keys with
  | [] => Returns true
  | key :: keys' =>
      match index r key with
      | None => Panics
      | Some j =>
          if JobResult.IsSkipped j || JobResult.IsInProgress j || JobResult.IsFailed j
          then Returns false
          else IsReady_loop r keys'
      end
  end.

Definition IsReady (o : MapOrder) (r : DAGResult) : outcome bool :=
  IsReady_loop r (orderedJobs o r).

Definition outcome_map {A B} (f : A → B) (x : outcome A) : outcome B :=
  match x with Returns a => Returns (f a) | Panics => Panics end.

Definition IsNotReady (o : MapOrder) (r : DAGResult) : outcome bool :=
  outcome_map negb (IsReady o r).

Fixpoint FirstInProgress_loop (r : DAGResult) (keys : list string)
    : outcome (option JobResult) :=
  match keys with
  | [] => Returns None
  | key :: keys' =>
      match index r key with
      | None => Panics
      | Some j =>
          if JobResult.IsInProgress j then Returns (Some j)
          else FirstInProgress_loop r keys'
      end
  end.

Definition FirstInProgress (o : MapOrder) (r : DAGResult) : outcome (option JobResult) :=
  FirstInProgress_loop r (orderedJobs o r).

Fixpoint IsSuccessful_loop (l : list (string * option JobResult)) : outcome bool :=
  match l with
  | [] => Returns true
  | (_, None) :: _ => Panics
  | (_, Some result) :: l' =>
      if decide (JobResult.Status result ≠ JobStatusSuccess) then Returns false
      else IsSuccessful_loop l'
  end.

Definition IsSuccessful (o : MapOrder) (r : DAGResult) : outcome bool :=
  IsSuccessful_loop (range o 147 r).

Definition IsNotSuccessful (o : MapOrder) (r : DAGResult) : outcome bool :=
  outcome_map negb (IsSuccessful o r).

Definition get (r : DAGResult) (job : string) : JobResult :=
  match r !! job with
  | Some (Some jr) => jr
  | _ => JobResult.Make job JobStatusUnknown None
  end.

Definition isSuccess (r : DAGResult) (job : string) : bool :=
  bool_decide (JobResult.Status (get r job) = JobStatusSuccess).

(** [dag[n]] for a [DAG]: an absent key reads as the nil slice. *)
Definition edges (dag : DAG) (n : string) : list string := default [] (dag !! n).

(** [Blockers] returns direct deps that are not successful (so they block
    this job). *)
Definition Blockers (r : DAGResult) (dag : DAG) (job : string) : list string :=
  let deps := edges dag job in
  if decide (length deps = 0) then []
  else sort_strings (filter (λ d, isSuccess r d = false) deps).

(** ** Graph traversals *)

(** Every name a graph mentions: its keys and the members of its lists. *)
Definition nodes (dag : DAG) : gset string :=
  dom dag ∪ ⋃ ((λ kv, list_to_set kv.2) <$> map_to_list dag).

(** The recursive closures of the source are unrolled along a counter that
    bounds the depth of the recursion; [None] is "counter exhausted".  The
    depth never exceeds the number of distinct names, which is what the
    callers below supply (see [dfs_total] and
    [hasNotSuccessInSubtree_total]). *)
Section Subtree.
Variable dag : DAG.

(** [for _, s := range dag[n] { dfs(s) }] over the shared [seen]/[out]. *)
Fixpoint dfs_each (rec : string → gset string * list string → option (gset string * list string))
    (ss : list string) (st : gset string * list string)
    : option (gset string * list string) :=
  match ss with
  | [] => Some st
  | s :: ss' => st' ← rec s st; dfs_each rec ss' st'
  end.

(** [seen] is a [map[string]bool] that only ever stores [true]: a set. *)
Fixpoint dfs (fuel : nat) (n : string) (st : gset string * list string)
    : option (gset string * list string) :=
  match fuel with
  | 0 => None
  | S fuel' =>
      if decide (n ∈ st.1) then Some st
      else dfs_each (dfs fuel') (edges dag n) ({[n]} ∪ st.1, st.2 ++ [n])
  end.
End Subtree.

(** [Subtree] returns all successors reachable from "root" (including root). *)
Definition Subtree (r : DAGResult) (dag : DAG) (root : string) : option (list string) :=
  st ← dfs dag (S (size ({[root]} ∪ nodes dag))) root (∅, []);
  Some (sort_strings st.2).

(** The inner loop of [reverseDAG]: [rev[dep] = append(rev[dep], n)] for
    each [dep] of [deps]. *)
Definition reverseDAG_deps (n : string) (deps : list string) (rev : DAG) : DAG :=
  foldl (λ (rev : DAG) dep, <[dep := edges rev dep ++ [n]]> rev) rev deps.

Definition reverseDAG (o : MapOrder) (r : DAGResult) (dag : DAG) : DAG :=
  let rev := foldl (λ (rev : DAG) '(n, _), <[n := []]> rev) ∅ (range o 300 dag) in
  foldl (λ (rev : DAG) '(n, deps), reverseDAG_deps n deps rev) rev (range o 303 dag).

Fixpoint Frontiers_loop (r : DAGResult) (dag rev : DAG) (jobs : list string)
    (items : list FrontierItem) : option (list FrontierItem) :=
  match jobs with
  | [] => Some items
  | job :: jobs' =>
      let jr := get r job in
      (* We ignore successes - they are not part of the "stuck frontier". *)
      if decide (JobResult.Status jr = JobStatusSuccess) then
        Frontiers_loop r dag rev jobs' items
      else
        let blockedBy := Blockers r dag job in
        (* - Failed is always interesting
           - InProgress is always interesting
           - Unknown/Skipped is interesting if it is not blocked *)
        if decide (JobResult.Status jr = JobStatusFailed
                   ∨ JobResult.Status jr = JobStatusInProgress
                   ∨ length blockedBy = 0) then
          subtree ← Subtree r rev job;
          Frontiers_loop r dag rev jobs'
            (items ++ [FrontierItem.Make job (JobResult.Status jr) blockedBy subtree r])
        else Frontiers_loop r dag rev jobs' items
  end.

(** [sort.Slice(items, func(i, j int) bool { return items[i].Job < items[j].Job })] *)
Definition sort_items (items : list FrontierItem) : list FrontierItem :=
  merge_sort (λ a b, String.le (FrontierItem.Job a) (FrontierItem.Job b)) items.

Definition Frontiers (o : MapOrder) (r : DAGResult) (dag : DAG) : option Frontiers_t :=
  let rev := reverseDAG o r dag in
  items ← Frontiers_loop r dag rev (range o 201 dag).*1 [];
  Some (sort_items items).

(** The two tables shared by all calls of [hasNotSuccessInSubtree]. *)
Record walk : Type := Walk {
  memo : gmap string bool;
  visiting : gset string
}.

Section hasNotSuccessInSubtree.
Variables (r : DAGResult) (succ : DAG).

(** The [for _, s := range succ[job]] loop; [false] is falling out of it. *)
Fixpoint succ_loop (rec : string → walk → option (bool * walk))
    (ss : list string) (w : walk) : option (bool * walk) :=
  match ss with
  | [] => Some (false, w)
  | s :: ss' =>
      if negb (isSuccess r s) then Some (true, w)
      else
        '(b, w') ← rec s w;
        if b : bool then Some (true, w') else succ_loop rec ss' w'
  end.

Fixpoint hasNotSuccessInSubtree (fuel : nat) (job : string) (w : walk)
    : option (bool * walk) :=
  match fuel with
  | 0 => None
  | S fuel' =>
      match memo w !! job with
      | Some v => Some (v, w)
      | None =>
          if decide (job ∈ visiting w) then
            (* Shouldn't happen in a DAG, but avoid infinite recursion. *)
            Some (false, w)
          else
            '(b, w') ← succ_loop (hasNotSuccessInSubtree fuel') (edges succ job)
                         (Walk (memo w) ({[job]} ∪ visiting w));
            (* memo[job] = b, then the deferred delete(visiting, job) *)
            Some (b, Walk (<[job := b]> (memo w')) (visiting w' ∖ {[job]}))
      end
  end.

Fixpoint BoundarySubtrees_loop (fuel : nat) (jobs : list string) (w : walk)
    (out : list string) : option (list string) :=
  match jobs with
  | [] => Some out
  | job :: jobs' =>
      if negb (isSuccess r job) then BoundarySubtrees_loop fuel jobs' w out
      else
        '(b, w') ← hasNotSuccessInSubtree fuel job w;
        BoundarySubtrees_loop fuel jobs' w' (if b : bool then out ++ [job] else out)
  end.
End hasNotSuccessInSubtree.

(** [BoundarySubtrees] returns jobs that are successful but have a
    not-yet-successful job somewhere in their successor subtree. *)
Definition BoundarySubtrees (o : MapOrder) (r : DAGResult) (dag : DAG) : option (list string) :=
  let succ := reverseDAG o r dag in (* job -> successors *)
  out ← BoundarySubtrees_loop r succ (S (size (nodes dag))) (range o 266 dag).*1 (Walk ∅ ∅) [];
  Some (sort_strings out).

Definition AsMap (f : Frontiers_t) : gmap string FrontierItem :=
  foldl (λ m frontier, <[FrontierItem.Job frontier := frontier]> m) ∅ f.

(** ** The running example of the specification *)

Definition dag5 : DAG :=
  list_to_map [("A", []); ("B", ["A"]); ("C", ["A"]); ("D", ["B"; "C"]); ("E", ["D"])].

Definition result_of (l : list (string * JobStatus)) : DAGResult :=
  list_to_map ((λ '(n, s), (n, Some (JobResult.Make n s None))) <$> l).

(** B returned (false, nil). *)
Definition result5 : DAGResult :=
  result_of [("A", JobStatusSuccess); ("B", JobStatusInProgress); ("C", JobStatusSuccess);
             ("D", JobStatusSkipped); ("E", JobStatusSkipped)].

(** All five jobs succeeded. *)
Definition result5_ok : DAGResult :=
  result_of [("A", JobStatusSuccess); ("B", JobStatusSuccess); ("C", JobStatusSuccess);
             ("D", JobStatusSuccess); ("E", JobStatusSuccess)].

(** C returned an error: the run was cancelled before D and E started. *)
Definition result5_failed : DAGResult :=
  <["C" := Some (JobResult.Fail (Some "boom") (JobResult.Make "C" JobStatusUnknown None))]>
    (result_of [("A", JobStatusSuccess); ("B", JobStatusSuccess); ("C", JobStatusUnknown);
                ("D", JobStatusUnknown); ("E", JobStatusUnknown)]).

(** A rank of the jobs of [dag5] that every dependency lowers. *)
Definition rank5 (job : string) : nat :=
  if decide (job = "A") then 0
  else if decide (job = "B") then 1
  else if decide (job = "C") then 1
  else if decide (job = "D") then 2
  else 3.

(** A run over [{A: [], B: [A]}] whose result has no entry for B. *)
Definition dag2 : DAG := list_to_map [("A", []); ("B", ["A"])].
Definition result2 : DAGResult := result_of [("A", JobStatusSuccess)].

(** ** Vocabulary of the statements *)

(** Every entry of the result points to a record (no nil pointer), as in
    every result [newDAGResult] and [TimeoutError] build. *)
Definition allocated (r : DAGResult) : Prop := map_Forall (λ _ p, is_Some p) r.

(** [job] lists [dep] among its dependencies. *)
Definition depends_on (dag : DAG) (job dep : string) : Prop := dep ∈ edges dag job.

(** The edges a traversal of [dag] follows: from a name to the members of
    its list. *)
Definition edge (dag : DAG) (x y : string) : Prop := y ∈ edges dag x.

(** The successor edges: from a job to the jobs that depend on it. *)
Definition successor (dag : DAG) (x y : string) : Prop := depends_on dag y x.

(** Every dependency is itself a key of the graph (no dangling edge). *)
Definition closed (dag : DAG) : Prop := ∀ job dep, depends_on dag job dep → dep ∈ dom dag.

(** No job depends on itself, directly or through other jobs. *)
Definition acyclic (dag : DAG) : Prop := ∀ x, ¬ tc (depends_on dag) x x.

(** What the specification words as "every job, excluding the synthetic
    entry, is Success". *)
Definition every_job_Success (r : DAGResult) : Prop :=
  ∀ key p, key ≠ timeoutError → r !! key = Some p →
    ∃ j, p = Some j ∧ JobResult.Status j = JobStatusSuccess.

(** The statuses [IsReady] lets pass. *)
Definition passes_IsReady (s : JobStatus) : Prop :=
  s ≠ JobStatusSkipped ∧ s ≠ JobStatusInProgress ∧ s ≠ JobStatusFailed.

(** What a traversal started on [roots] in state [st] has done when it
    hands back [st']: the names [new] it appended are fresh and distinct,
    each is reachable from a root, every root is now seen, and every edge
    out of a new name leads to a seen name. *)
Definition dfs_post (dag : DAG) (roots : list string)
    (st st' : gset string * list string) : Prop :=
  ∃ new,
    st'.2 = st.2 ++ new
    ∧ st'.1 = list_to_set new ∪ st.1
    ∧ NoDup new
    ∧ (∀ x, x ∈ new → x ∉ st.1)
    ∧ (∀ s, s ∈ roots → s ∈ st'.1)
    ∧ (∀ x, x ∈ new → ∃ s, s ∈ roots ∧ rtc (edge dag) s x)
    ∧ (∀ x y, x ∈ new → edge dag x y → y ∈ st'.1).

(** The jobs [Frontiers] keeps: not [Success], and [Failed], [InProgress]
    or without blockers. *)
Definition interesting (r : DAGResult) (dag : DAG) (job : string) : Prop :=
  JobResult.Status (get r job) ≠ JobStatusSuccess
  ∧ (JobResult.Status (get r job) = JobStatusFailed
     ∨ JobResult.Status (get r job) = JobStatusInProgress
     ∨ length (Blockers r dag job) = 0).

Global Instance interesting_dec r dag job : Decision (interesting r dag job).
Proof. unfold interesting. apply _. Defined.

(** The fields of the item [Frontiers] builds for its job. *)
Definition item_of (r : DAGResult) (dag rev : DAG) (item : FrontierItem) : Prop :=
  FrontierItem.Status item = JobResult.Status (get r (FrontierItem.Job item))
  ∧ FrontierItem.BlockedBy item = Blockers r dag (FrontierItem.Job item)
  ∧ Subtree r rev (FrontierItem.Job item) = Some (FrontierItem.Subtree item)
  ∧ FrontierItem.dagResult item = r.

Global Instance item_le_dec : RelDecision (λ a b, String.le (FrontierItem.Job a) (FrontierItem.Job b)).
Proof. intros a b. apply _. Defined.

(** Some name below [x] in the graph [succ] is not [Success]. *)
Definition unfinished_below (r : DAGResult) (succ : DAG) (x : string) : Prop :=
  ∃ y, tc (edge succ) x y ∧ isSuccess r y = false.

(** What the memo table may hold: [true] only for names with an
    unfinished name below them, [false] only for names all of whose direct
    successors are [Success]. *)
Definition memo_sound (r : DAGResult) (succ : DAG) (w : walk) : Prop :=
  (∀ x, memo w !! x = Some true → unfinished_below r succ x)
  ∧ (∀ x, memo w !! x = Some false → ∀ s, s ∈ edges succ x → isSuccess r s = true).

(** In an acyclic graph [false] is recorded only for names with nothing
    unfinished below them. *)
Definition memo_complete (r : DAGResult) (succ : DAG) (w : walk) : Prop :=
  ∀ x, memo w !! x = Some false → ¬ unfinished_below r succ x.

(** What a caller reads off a frontier item (the back pointer to the
    result left aside). *)
Definition item_view (item : FrontierItem) : string * JobStatus * list string * list string :=
  (FrontierItem.Job item, FrontierItem.Status item,
   FrontierItem.BlockedBy item, FrontierItem.Subtree item).

(** ** Sorting *)

Lemma sort_strings_perm l : sort_strings l ≡ₚ l.
Proof. apply merge_sort_Permutation. Qed.

Lemma sort_strings_sorted l : StronglySorted String.le (sort_strings l).
Proof. apply StronglySorted_merge_sort; apply _. Qed.

Lemma elem_of_sort_strings x l : x ∈ sort_strings l ↔ x ∈ l.
Proof. by rewrite sort_strings_perm. Qed.

Lemma sort_strings_NoDup l : NoDup l → NoDup (sort_strings l).
Proof. by rewrite sort_strings_perm. Qed.

Lemma sort_strings_nil l : sort_strings l = [] ↔ l = [].
Proof.
  split; [|by intros ->].
  intros H. apply Permutation_nil_r. by rewrite <-H, sort_strings_perm.
Qed.

(** The sorted arrangement of a list of strings is unique: whichever
    algorithm [sort.Strings] runs, this is its output. *)
Lemma sort_strings_unique l l' :
  l' ≡ₚ l → Sorted String.le l' → l' = sort_strings l.
Proof.
  intros Hp Hs. apply (Sorted_unique String.le); [done| |].
  - apply Sorted_merge_sort; apply _.
  - by rewrite Hp, sort_strings_perm.
Qed.

(** ** Map iteration *)

Lemma elem_of_range {V} (o : MapOrder) site (m : gmap string V) k v :
  (k, v) ∈ range o site m ↔ m !! k = Some v.
Proof. by rewrite range_perm, elem_of_map_to_list. Qed.

Lemma elem_of_range_keys {V} (o : MapOrder) site (m : gmap string V) k :
  k ∈ (range o site m).*1 ↔ is_Some (m !! k).
Proof.
  rewrite list_elem_of_fmap. split.
  - intros [[k' v] [-> H%elem_of_range]]. eauto.
  - intros [v H]. exists (k, v). by rewrite elem_of_range.
Qed.

Lemma NoDup_range_keys {V} (o : MapOrder) site (m : gmap string V) :
  NoDup (range o site m).*1.
Proof. rewrite range_perm. apply NoDup_fst_map_to_list. Qed.

Lemma elem_of_orderedJobs o (r : DAGResult) key :
  key ∈ orderedJobs o r ↔ is_Some (r !! key).
Proof. unfold orderedJobs. by rewrite elem_of_sort_strings, elem_of_range_keys. Qed.

(** ** Blockers *)

Lemma isSuccess_status r job :
  isSuccess r job = true ↔ JobResult.Status (get r job) = JobStatusSuccess.
Proof. unfold isSuccess. by rewrite bool_decide_eq_true. Qed.

Lemma isSuccess_false r job :
  isSuccess r job = false ↔ JobResult.Status (get r job) ≠ JobStatusSuccess.
Proof. unfold isSuccess. by rewrite bool_decide_eq_false. Qed.

Lemma Blockers_unfold r dag job :
  Blockers r dag job = sort_strings (filter (λ d, isSuccess r d = false) (edges dag job)).
Proof.
  unfold Blockers. case_decide as Hlen; [|done].
  apply nil_length_inv in Hlen. by rewrite Hlen.
Qed.

Lemma elem_of_Blockers r dag job dep :
  dep ∈ Blockers r dag job ↔
  depends_on dag job dep ∧ JobResult.Status (get r dep) ≠ JobStatusSuccess.
Proof.
  rewrite Blockers_unfold, elem_of_sort_strings, list_elem_of_filter, isSuccess_false.
  unfold depends_on. tauto.
Qed.

Lemma Blockers_nil r dag job :
  Blockers r dag job = [] ↔
  ∀ dep, depends_on dag job dep → JobResult.Status (get r dep) = JobStatusSuccess.
Proof.
  split.
  - intros H dep Hdep.
    destruct (decide (JobResult.Status (get r dep) = JobStatusSuccess)) as [|Hne]; [done|].
    assert (dep ∈ Blockers r dag job) as Hin by by apply elem_of_Blockers.
    rewrite H in Hin. by apply elem_of_nil in Hin.
  - intros H. destruct (Blockers r dag job) as [|dep l] eqn:E; [done|].
    assert (dep ∈ Blockers r dag job) as Hin by (rewrite E; left).
    apply elem_of_Blockers in Hin as [Hdep Hne]. by destruct Hne; apply H.
Qed.

(** C6. [Blockers(dag, job)] is the list of the direct dependencies of
    [job] whose status is not [Success] (each as often as [dag] lists it),
    in ascending order; it is empty exactly when every dependency is
    [Success], which covers a job without dependencies. *)
Theorem Blockers_spec (r : DAGResult) (dag : DAG) (job : string) :
  Blockers r dag job
    ≡ₚ filter (λ dep, JobResult.Status (get r dep) ≠ JobStatusSuccess) (edges dag job)
  ∧ Sorted String.le (Blockers r dag job)
  ∧ (∀ dep, dep ∈ Blockers r dag job ↔
       depends_on dag job dep ∧ JobResult.Status (get r dep) ≠ JobStatusSuccess)
  ∧ (Blockers r dag job = [] ↔
       ∀ dep, depends_on dag job dep → JobResult.Status (get r dep) = JobStatusSuccess)
  ∧ (edges dag job = [] → Blockers r dag job = []).
Proof.
  split_and!.
  - rewrite Blockers_unfold, sort_strings_perm.
    erewrite list_filter_iff; [done|]. intros dep. apply isSuccess_false.
  - rewrite Blockers_unfold. apply Sorted_merge_sort; apply _.
  - apply elem_of_Blockers.
  - apply Blockers_nil.
  - intros H. apply Blockers_nil. unfold depends_on. rewrite H.
    intros dep Hdep. by apply elem_of_nil in Hdep.
Qed.

(** ** Aggregate predicates *)

Lemma IsReady_loop_true r keys :
  IsReady_loop r keys = Returns true ↔
  Forall (λ key, ∃ j, index r key = Some j ∧ passes_IsReady (JobResult.Status j)) keys.
Proof.
  induction keys as [|key keys IH]; simpl.
  - split; [constructor|done].
  - rewrite Forall_cons, <-IH. clear IH.
    destruct (index r key) as [j|]; [|by split; [|intros [(? & ? & _) _]]].
    unfold JobResult.IsSkipped, JobResult.IsInProgress, JobResult.IsFailed, passes_IsReady.
    destruct (JobResult.Status j) eqn:Hs; simpl.
    1, 2: split; [intros Hrest; split; [by exists j; rewrite Hs|done]|by intros [_ ?]].
    all: split; [done|]; intros [(j' & [= <-] & ? & ? & ?) _]; congruence.
Qed.

Lemma IsSuccessful_loop_true l :
  IsSuccessful_loop l = Returns true ↔
  Forall (λ kp, ∃ j, kp.2 = Some j ∧ JobResult.Status j = JobStatusSuccess) l.
Proof.
  induction l as [|[key [j|]] l IH]; simpl.
  - split; [constructor|done].
  - rewrite Forall_cons, <-IH. clear IH. simpl. case_decide as Hs.
    + split; [done|]. intros [(j' & [= <-] & ?) _]. done.
    + split; [|by intros [_ ?]]. intros Hrest. split; [|done]. by exists j.
  - rewrite Forall_cons. simpl. split; [done|]. by intros [(? & ? & _) _].
Qed.

(** C1, as the code has it.  [IsReady] returns true exactly when every
    entry of the result, the timeout entry included, is a record whose
    status is none of [Skipped], [InProgress], [Failed] (an [Unknown] entry
    passes); [IsSuccessful] returns true exactly when every entry, the
    timeout entry included, is a record with status [Success].  Both hold
    whatever order the map is enumerated in. *)
Theorem IsReady_IsSuccessful_spec (o : MapOrder) (r : DAGResult) :
  (IsReady o r = Returns true ↔
     ∀ key p, r !! key = Some p →
       ∃ j, p = Some j ∧ JobResult.Status j ≠ JobStatusSkipped
            ∧ JobResult.Status j ≠ JobStatusInProgress
            ∧ JobResult.Status j ≠ JobStatusFailed)
  ∧ (IsSuccessful o r = Returns true ↔
     ∀ key p, r !! key = Some p →
       ∃ j, p = Some j ∧ JobResult.Status j = JobStatusSuccess).
Proof.
  split.
  - unfold IsReady. rewrite IsReady_loop_true, Forall_forall. split.
    + intros H key p Hkey.
      destruct (H key) as (j & Hj & Hs); [apply elem_of_orderedJobs; eauto|].
      unfold index in Hj. rewrite Hkey in Hj. simpl in Hj. by exists j.
    + intros H key [p Hkey]%elem_of_orderedJobs.
      destruct (H key p Hkey) as (j & -> & Hs). exists j.
      unfold index. by rewrite Hkey.
  - unfold IsSuccessful. rewrite IsSuccessful_loop_true, Forall_forall. split.
    + intros H key p Hkey. apply (H (key, p)). by apply elem_of_range.
    + intros H [key p] Hkey%elem_of_range. by apply (H key p).
Qed.

Section timeout_facts.
Variable format_seconds : Duration → string.

Lemma TimeoutError_allocated deadline r :
  allocated r → allocated (TimeoutError format_seconds deadline r).
Proof. intros H. apply map_Forall_insert_2; [by eexists|done]. Qed.
End timeout_facts.

Lemma newDAGResult_allocated dag : allocated (newDAGResult dag).
Proof.
  intros key p. unfold newDAGResult. rewrite map_lookup_imap.
  destruct (dag !! key); simpl; [|done]. intros [= <-]. by eexists.
Qed.

Lemma IsFailed_loop_false l :
  IsFailed_loop l = Returns false →
  Forall (λ kp, ∃ j, kp.2 = Some j ∧ JobResult.Status j ≠ JobStatusFailed) l.
Proof.
  induction l as [|[key [j|]] l IH]; simpl; intros Hrun; [constructor| |done].
  case_decide as Hs; [done|]. constructor; [by exists j|by apply IH].
Qed.

Lemma IsFailed_loop_allocated l :
  Forall (λ kp, is_Some kp.2) l →
  ∃ b, IsFailed_loop l = Returns b
       ∧ (b = true ↔
          Exists (λ kp, ∃ j, kp.2 = Some j ∧ JobResult.Status j = JobStatusFailed) l).
Proof.
  induction 1 as [|[key p] l [j Hj] _ (b & IH & Hb)]; simpl in *.
  - exists false. split; [done|]. split; [done|]. by intros ?%Exists_nil.
  - subst p. case_decide as Hs.
    + exists true. split; [done|]. split; [|done]. intros _. left. by exists j.
    + exists b. split; [done|]. rewrite Hb, Exists_cons. simpl.
      split; [by right|]. intros [(j' & [= <-] & ?)|?]; done.
Qed.

(** On a result without nil entries [IsFailed] returns, in every
    enumeration order, whether some entry is [Failed]. *)
Lemma IsFailed_allocated o r :
  allocated r →
  ∃ b, IsFailed o r = Returns b
       ∧ (b = true ↔ ∃ key j, r !! key = Some (Some j) ∧ JobResult.Status j = JobStatusFailed).
Proof.
  intros Hr. unfold IsFailed.
  destruct (IsFailed_loop_allocated (range o 111 r)) as (b & Hl & Hb).
  - apply Forall_forall. intros [key p] Hin%elem_of_range. by apply (Hr key p).
  - exists b. split; [done|]. rewrite Hb, Exists_exists. split.
    + intros ([key p] & Hin%elem_of_range & j & Hp & Hs). simpl in Hp. subst p. eauto.
    + intros (key & j & Hkey & Hs). exists (key, Some j).
      split; [by apply elem_of_range|]. by exists j.
Qed.

Section timeout_spec.
Variable format_seconds : Duration → string.

(** C7. [IsTimeouted] is true exactly when the key "timeout_error" is
    present.  After [TimeoutError(deadline)] that key holds a record with
    status [Failed] and a non-nil error, so [IsTimeouted] is true and
    [IsFailed] cannot return false; when the result holds no nil pointer,
    [IsFailed] returns true in every enumeration order. *)
Theorem TimeoutError_spec (o : MapOrder) (deadline : Duration) (r : DAGResult) :
  (IsTimeouted r = true ↔ is_Some (r !! timeoutError))
  ∧ (∃ j e, TimeoutError format_seconds deadline r !! timeoutError = Some (Some j)
            ∧ JobResult.Status j = JobStatusFailed ∧ JobResult.Error j = Some e)
  ∧ IsTimeouted (TimeoutError format_seconds deadline r) = true
  ∧ IsFailed o (TimeoutError format_seconds deadline r) ≠ Returns false
  ∧ (allocated r → IsFailed o (TimeoutError format_seconds deadline r) = Returns true).
Proof.
  assert (∃ j, TimeoutError format_seconds deadline r !! timeoutError = Some (Some j)
               ∧ JobResult.Status j = JobStatusFailed) as (j & Hj & Hs).
  { unfold TimeoutError. rewrite lookup_insert_eq. by eexists. }
  split_and!.
  - unfold IsTimeouted. destruct (r !! timeoutError); split; by eauto using is_Some_None.
  - unfold TimeoutError. rewrite lookup_insert_eq. by eexists _, _.
  - unfold IsTimeouted. by rewrite Hj.
  - intros Hrun%IsFailed_loop_false.
    destruct (proj1 (Forall_forall _ _) Hrun (timeoutError, Some j))
      as (j' & [= <-] & Hne); [by apply elem_of_range|done].
  - intros Hr.
    destruct (IsFailed_allocated o (TimeoutError format_seconds deadline r))
      as (b & -> & Hb); [by apply TimeoutError_allocated|].
    f_equal. apply Hb. by exists timeoutError, j.
Qed.
End timeout_spec.

(** ** FirstInProgress *)

Lemma FirstInProgress_loop_spec (r : DAGResult) keys :
  Forall (λ key, is_Some (index r key)) keys →
  StronglySorted String.le keys →
  (∃ key j, FirstInProgress_loop r keys = Returns (Some j)
            ∧ key ∈ keys ∧ index r key = Some j
            ∧ JobResult.Status j = JobStatusInProgress
            ∧ ∀ key' j', key' ∈ keys → index r key' = Some j' →
                JobResult.Status j' = JobStatusInProgress → String.le key key')
  ∨ (FirstInProgress_loop r keys = Returns None
     ∧ ∀ key j, key ∈ keys → index r key = Some j →
         JobResult.Status j ≠ JobStatusInProgress).
Proof.
  induction 1 as [|key keys [j Hj] _ IH]; intros Hsorted; simpl.
  - right. split; [done|]. by intros ?? ?%elem_of_nil.
  - apply StronglySorted_inv in Hsorted as [Hsorted Hle]. rewrite Hj.
    unfold JobResult.IsInProgress. case_bool_decide as Hs.
    + left. exists key, j. split_and!; [done|by left|done..|].
      intros key' j' [->|Hin]%elem_of_cons _ _; [done|].
      by apply (proj1 (Forall_forall _ _) Hle).
    + destruct (IH Hsorted) as [(k & j0 & Hret & Hin & Hk & Hs0 & Hmin)|[Hret Hnone]].
      * left. exists k, j0. split_and!; [done|by right|done..|].
        intros key' j' [->|Hin']%elem_of_cons Hj' Hs'; [congruence|eauto].
      * right. split; [done|].
        intros key' j' [->|Hin']%elem_of_cons Hj'; [congruence|eauto].
Qed.

(** C8. On a result without nil entries, [FirstInProgress] returns the
    [InProgress] entry with the smallest key, and nil when there is no
    [InProgress] entry. *)
Theorem FirstInProgress_spec (o : MapOrder) (r : DAGResult) :
  allocated r →
  (∃ key j, FirstInProgress o r = Returns (Some j)
            ∧ r !! key = Some (Some j)
            ∧ JobResult.Status j = JobStatusInProgress
            ∧ ∀ key' j', r !! key' = Some (Some j') →
                JobResult.Status j' = JobStatusInProgress → String.le key key')
  ∨ (FirstInProgress o r = Returns None
     ∧ ∀ key j, r !! key = Some (Some j) → JobResult.Status j ≠ JobStatusInProgress).
Proof.
  intros Hr. unfold FirstInProgress.
  assert (∀ key j, index r key = Some j ↔ r !! key = Some (Some j)) as Hindex.
  { intros key j. unfold index. destruct (r !! key) as [p|]; simpl; [|done].
    split; congruence. }
  assert (∀ key j, r !! key = Some (Some j) → key ∈ orderedJobs o r) as Hkeys.
  { intros key j Hkey. apply elem_of_orderedJobs. eauto. }
  destruct (FirstInProgress_loop_spec r (orderedJobs o r))
    as [(key & j & Hret & Hin & Hk & Hs & Hmin)|[Hret Hnone]].
  - apply Forall_forall. intros key [p Hkey]%elem_of_orderedJobs.
    destruct (Hr key p Hkey) as [j ->]. exists j. by apply Hindex.
  - apply sort_strings_sorted.
  - left. exists key, j. split_and!; [done|by apply Hindex|done|].
    intros key' j' Hkey' Hs'. apply (Hmin key' j'); [by eapply Hkeys|by apply Hindex|done].
  - right. split; [done|]. intros key j Hkey. apply (Hnone key j); [by eapply Hkeys|by apply Hindex].
Qed.

(** ** The reverse graph *)

Lemma elem_of_edges_Some (dag : DAG) x y :
  y ∈ edges dag x ↔ ∃ l, dag !! x = Some l ∧ y ∈ l.
Proof.
  unfold edges. destruct (dag !! x) as [l|]; simpl.
  - split; [by eauto|]. by intros (? & [= <-] & ?).
  - split; [by intros ?%elem_of_nil|]. by intros (? & ? & _).
Qed.

Lemma elem_of_nodes dag x :
  x ∈ nodes dag ↔ x ∈ dom dag ∨ ∃ job, depends_on dag job x.
Proof.
  unfold nodes, depends_on. rewrite elem_of_union, elem_of_union_list.
  apply or_iff_compat_l. split.
  - intros (X & ([job deps] & -> & Hin%elem_of_map_to_list)%list_elem_of_fmap & Hx).
    simpl in Hx. apply elem_of_list_to_set in Hx.
    exists job. apply elem_of_edges_Some. eauto.
  - intros (job & (deps & Hjob & Hin)%elem_of_edges_Some).
    exists (list_to_set deps). split; [|by apply elem_of_list_to_set].
    apply list_elem_of_fmap. exists (job, deps). by rewrite elem_of_map_to_list.
Qed.

Lemma reverseDAG_init_lookup (l : list (string * list string)) (acc : DAG) k :
  foldl (λ (rev : DAG) '(n, _), <[n := []]> rev) acc l !! k
  = if decide (k ∈ l.*1) then Some [] else acc !! k.
Proof.
  revert acc. induction l as [|[n deps] l IH]; intros acc.
  - case_decide as Hin; [by apply elem_of_nil in Hin|done].
  - cbn [foldl]. rewrite IH, fmap_cons. cbn [fst].
    destruct (decide (k ∈ l.*1)) as [Hin|Hin].
    + rewrite decide_True; [done|]. by right.
    + destruct (decide (k = n)) as [->|Hne].
      * rewrite decide_True by left. by rewrite lookup_insert_eq.
      * rewrite decide_False by (by intros [?|?]%elem_of_cons).
        by rewrite lookup_insert_ne.
Qed.

Lemma reverseDAG_deps_edges n deps (rev : DAG) k y :
  y ∈ edges (reverseDAG_deps n deps rev) k ↔ y ∈ edges rev k ∨ (y = n ∧ k ∈ deps).
Proof.
  unfold reverseDAG_deps. revert rev. induction deps as [|dep deps IH]; intros rev; simpl.
  - split; [by left|]. by intros [?|[_ ?%elem_of_nil]].
  - rewrite IH. unfold edges at 1. destruct (decide (k = dep)) as [->|Hne].
    + rewrite lookup_insert_eq. simpl. rewrite elem_of_app, list_elem_of_singleton.
      rewrite elem_of_cons. intuition auto.
    + rewrite lookup_insert_ne by done. fold (edges rev k).
      rewrite elem_of_cons. intuition congruence.
Qed.

Lemma reverseDAG_deps_dom n deps (rev : DAG) k :
  k ∈ dom (reverseDAG_deps n deps rev) ↔ k ∈ dom rev ∨ k ∈ deps.
Proof.
  unfold reverseDAG_deps. revert rev. induction deps as [|dep deps IH]; intros rev; simpl.
  - split; [by left|]. by intros [?|?%elem_of_nil].
  - rewrite IH, dom_insert, elem_of_union, elem_of_singleton, elem_of_cons. tauto.
Qed.

Lemma reverseDAG_fill_edges (l : list (string * list string)) (rev : DAG) k y :
  y ∈ edges (foldl (λ (rev : DAG) '(n, deps), reverseDAG_deps n deps rev) rev l) k
  ↔ y ∈ edges rev k ∨ ∃ deps, (y, deps) ∈ l ∧ k ∈ deps.
Proof.
  revert rev. induction l as [|[n deps] l IH]; intros rev; simpl.
  - split; [by left|]. by intros [?|(? & ?%elem_of_nil & _)].
  - rewrite IH, reverseDAG_deps_edges. split.
    + intros [[?|[-> ?]]|(deps' & ? & ?)]; [by left|right..].
      * exists deps. split; [left|done].
      * exists deps'. split; [by right|done].
    + intros [?|(deps' & [[= -> ->]|?]%elem_of_cons & ?)]; [by left; left|by left; right|].
      right. by exists deps'.
Qed.

Lemma reverseDAG_fill_dom (l : list (string * list string)) (rev : DAG) k :
  k ∈ dom (foldl (λ (rev : DAG) '(n, deps), reverseDAG_deps n deps rev) rev l)
  ↔ k ∈ dom rev ∨ ∃ n deps, (n, deps) ∈ l ∧ k ∈ deps.
Proof.
  revert rev. induction l as [|[n deps] l IH]; intros rev; simpl.
  - split; [by left|]. by intros [?|(? & ? & ?%elem_of_nil & _)].
  - rewrite IH, reverseDAG_deps_dom. split.
    + intros [[?|?]|(n' & deps' & ? & ?)]; [by left|right..].
      * exists n, deps. split; [left|done].
      * exists n', deps'. split; [by right|done].
    + intros [?|(n' & deps' & [[= -> ->]|?]%elem_of_cons & ?)]; [by left; left|by left; right|].
      right. by exists n', deps'.
Qed.

(** The reverse graph has the edge [dep -> job] exactly when [job] lists
    [dep], in whatever order the keys of [dag] are enumerated. *)
Lemma reverseDAG_edges o r dag dep job :
  job ∈ edges (reverseDAG o r dag) dep ↔ depends_on dag job dep.
Proof.
  unfold reverseDAG, depends_on. rewrite reverseDAG_fill_edges. split.
  - intros [Hinit|(deps & Hin%elem_of_range & Hdep)].
    + unfold edges in Hinit at 1. rewrite reverseDAG_init_lookup in Hinit.
      case_decide; simpl in Hinit; [by apply elem_of_nil in Hinit|].
      rewrite lookup_empty in Hinit. by apply elem_of_nil in Hinit.
    + apply elem_of_edges_Some. eauto.
  - intros (deps & Hjob & Hdep)%elem_of_edges_Some. right. exists deps.
    by rewrite elem_of_range.
Qed.

Lemma reverseDAG_dom o r dag k :
  k ∈ dom (reverseDAG o r dag) ↔ k ∈ dom dag ∨ ∃ job, depends_on dag job k.
Proof.
  unfold reverseDAG, depends_on. rewrite reverseDAG_fill_dom. split.
  - intros [Hk|(n & deps & Hin%elem_of_range & Hdep)].
    + apply elem_of_dom in Hk. rewrite reverseDAG_init_lookup in Hk.
      case_decide as Hin; [|by rewrite lookup_empty in Hk; destruct Hk].
      left. by apply elem_of_dom, (elem_of_range_keys o 300).
    + right. exists n. apply elem_of_edges_Some. eauto.
  - intros [Hk|(job & (deps & Hjob & Hdep)%elem_of_edges_Some)].
    + left. apply elem_of_dom. rewrite reverseDAG_init_lookup.
      rewrite decide_True; [done|]. by apply elem_of_range_keys, elem_of_dom.
    + right. exists job, deps. by rewrite elem_of_range.
Qed.

Lemma reverseDAG_nodes o r dag : nodes (reverseDAG o r dag) = nodes dag.
Proof.
  apply set_eq. intros x. rewrite !elem_of_nodes, reverseDAG_dom. unfold depends_on.
  setoid_rewrite reverseDAG_edges. unfold depends_on. split.
  - intros [[?|?]|[job Hjob]]; [by left|by right|].
    left. apply elem_of_edges_Some in Hjob as (l & ? & _). apply elem_of_dom. eauto.
  - intros [?|?]; [by left; left|by left; right].
Qed.

(** C10, as the code has it.  The keys of [reverseDAG(d)] are the keys of
    [d] together with every name [d] lists as a dependency, so the key
    sets agree when every dependency of [d] is itself a key of [d]; the
    edge [dep -> job] is present exactly when [d] lists [dep] among the
    dependencies of [job]; reversing twice gives back the edges of [d],
    over the key set of the first reversal. *)
Theorem reverseDAG_spec (o o' : MapOrder) (r r' : DAGResult) (dag : DAG) :
  let rev := reverseDAG o r dag in
  let back := reverseDAG o' r' rev in
  (∀ k, k ∈ dom rev ↔ k ∈ dom dag ∨ ∃ job, depends_on dag job k)
  ∧ (∀ dep job, job ∈ edges rev dep ↔ dep ∈ edges dag job)
  ∧ (∀ job dep, dep ∈ edges back job ↔ dep ∈ edges dag job)
  ∧ dom back = dom rev
  ∧ (closed dag → dom rev = dom dag ∧ dom back = dom dag).
Proof.
  intros rev back.
  assert (∀ k, k ∈ dom back ↔ k ∈ dom rev) as Hback.
  { intros k. unfold back. rewrite reverseDAG_dom. split; [|by left].
    intros [?|[job Hjob]]; [done|]. apply reverseDAG_edges in Hjob.
    apply reverseDAG_dom. left.
    apply elem_of_edges_Some in Hjob as (l & ? & _). apply elem_of_dom. eauto. }
  split_and!.
  - intros k. apply reverseDAG_dom.
  - intros dep job. apply reverseDAG_edges.
  - intros job dep. unfold back. rewrite reverseDAG_edges. apply reverseDAG_edges.
  - by apply set_eq.
  - intros Hclosed.
    assert (dom rev = dom dag) as Hrev.
    { apply set_eq. intros k. unfold rev. rewrite reverseDAG_dom.
      split; [|by left]. intros [?|[job ?]]; [done|by eapply Hclosed]. }
    split; [done|]. rewrite <-Hrev. by apply set_eq.
Qed.

(** ** Subtree *)

Section Subtree_facts.
Variable dag : DAG.

Lemma dfs_post_nil st : dfs_post dag [] st st.
Proof.
  exists []. rewrite app_nil_r. split_and!.
  - done.
  - set_solver.
  - constructor.
  - by intros ? ?%elem_of_nil.
  - by intros ? ?%elem_of_nil.
  - by intros ? ?%elem_of_nil.
  - by intros ?? ?%elem_of_nil.
Qed.

Lemma dfs_post_seen n st : n ∈ st.1 → dfs_post dag [n] st st.
Proof.
  intros Hn. exists []. rewrite app_nil_r. split_and!.
  - done.
  - set_solver.
  - constructor.
  - by intros ? ?%elem_of_nil.
  - by intros s ->%list_elem_of_singleton.
  - by intros ? ?%elem_of_nil.
  - by intros ?? ?%elem_of_nil.
Qed.

Lemma dfs_post_mono roots st st' : dfs_post dag roots st st' → st.1 ⊆ st'.1.
Proof. intros (new & _ & -> & _). set_solver. Qed.

Lemma dfs_post_app roots1 roots2 st st1 st2 :
  dfs_post dag roots1 st st1 → dfs_post dag roots2 st1 st2 →
  dfs_post dag (roots1 ++ roots2) st st2.
Proof.
  intros (new1 & Ho1 & Hs1 & Hnd1 & Hf1 & Hr1 & Hp1 & Hc1)
         (new2 & Ho2 & Hs2 & Hnd2 & Hf2 & Hr2 & Hp2 & Hc2).
  exists (new1 ++ new2). split_and!.
  - by rewrite Ho2, Ho1, app_assoc.
  - rewrite Hs2, Hs1, list_to_set_app_L. set_solver.
  - apply NoDup_app. split_and!; [done| |done].
    intros x Hx1 Hx2. apply (Hf2 x Hx2). rewrite Hs1. set_solver.
  - intros x [Hx|Hx]%elem_of_app; [by apply Hf1|].
    intros Hin. apply (Hf2 x Hx). rewrite Hs1. set_solver.
  - intros s [Hs|Hs]%elem_of_app; [|by apply Hr2].
    rewrite Hs2. apply elem_of_union_r. by apply Hr1.
  - intros x [Hx|Hx]%elem_of_app.
    + destruct (Hp1 x Hx) as (s & ? & ?). exists s. split; [|done].
      apply elem_of_app. by left.
    + destruct (Hp2 x Hx) as (s & ? & ?). exists s. split; [|done].
      apply elem_of_app. by right.
  - intros x y [Hx|Hx]%elem_of_app Hxy; [|by eapply Hc2].
    rewrite Hs2. apply elem_of_union_r. by eapply Hc1.
Qed.

(** Entering a fresh [n]: marking it, appending it and visiting its
    successors amounts to a traversal from [n]. *)
Lemma dfs_post_enter n st st' :
  n ∉ st.1 →
  dfs_post dag (edges dag n) ({[n]} ∪ st.1, st.2 ++ [n]) st' →
  dfs_post dag [n] st st'.
Proof.
  intros Hn (new & Ho & Hs & Hnd & Hf & Hr & Hp & Hc). simpl in *.
  exists (n :: new). split_and!.
  - by rewrite Ho, <-app_assoc.
  - rewrite Hs. simpl. set_solver.
  - constructor; [|done]. intros Hin. apply (Hf n Hin). set_solver.
  - intros x [->|Hx]%elem_of_cons; [done|].
    intros Hin. apply (Hf x Hx). set_solver.
  - intros s ->%list_elem_of_singleton. rewrite Hs. set_solver.
  - intros x [->|Hx]%elem_of_cons.
    + exists n. split; [left|done].
    + destruct (Hp x Hx) as (s & Hs' & Hsx). exists n. split; [left|].
      by eapply rtc_l.
  - intros x y [->|Hx]%elem_of_cons Hxy; [by apply Hr|by eapply Hc].
Qed.

Lemma dfs_each_post rec ss :
  (∀ s st st', rec s st = Some st' → dfs_post dag [s] st st') →
  ∀ st st', dfs_each rec ss st = Some st' → dfs_post dag ss st st'.
Proof.
  intros Hrec. induction ss as [|s ss IH]; intros st st' Hrun; simpl in Hrun.
  - injection Hrun as <-. apply dfs_post_nil.
  - destruct (rec s st) as [st1|] eqn:Hs; simpl in Hrun; [|done].
    apply (dfs_post_app [s] ss _ st1); eauto.
Qed.

Lemma dfs_sound fuel n st st' :
  dfs dag fuel n st = Some st' → dfs_post dag [n] st st'.
Proof.
  revert n st st'. induction fuel as [|fuel IH]; intros n st st' Hrun; simpl in Hrun.
  - done.
  - case_decide as Hn.
    + injection Hrun as <-. by apply dfs_post_seen.
    + apply dfs_post_enter; [done|]. by eapply dfs_each_post.
Qed.

Lemma dfs_each_total (U : gset string) bound rec ss :
  (∀ s st, s ∈ U → size (U ∖ st.1) < bound → is_Some (rec s st)) →
  (∀ s st st', rec s st = Some st' → st.1 ⊆ st'.1) →
  ∀ st, (∀ s, s ∈ ss → s ∈ U) → size (U ∖ st.1) < bound →
    is_Some (dfs_each rec ss st).
Proof.
  intros Hrec Hmono. induction ss as [|s ss IH]; intros st Hss Hsize; simpl.
  - by eexists.
  - destruct (Hrec s st) as [st1 Hs]; [apply Hss; left|done|].
    rewrite Hs. simpl. apply IH.
    + intros s' Hs'. apply Hss. by right.
    + apply Hmono in Hs.
      apply Nat.le_lt_trans with (size (U ∖ st.1)); [|done].
      apply subseteq_size. set_solver.
Qed.

(** The counter suffices as soon as it exceeds the number of names not
    yet seen, in any set of names closed under the edges. *)
Lemma dfs_total (U : gset string) fuel n st :
  (∀ x y, x ∈ U → edge dag x y → y ∈ U) →
  n ∈ U → size (U ∖ st.1) < fuel → is_Some (dfs dag fuel n st).
Proof.
  intros HU. revert n st.
  induction fuel as [|fuel IH]; intros n st Hn Hfuel; [lia|]. simpl.
  case_decide as Hseen; [by eexists|].
  apply (dfs_each_total U fuel).
  - done.
  - intros s st1 st2 Hs. by eapply dfs_post_mono, dfs_sound.
  - intros s Hs. by eapply HU.
  - simpl. apply Nat.lt_le_trans with (size (U ∖ st.1)); [|lia].
    apply subset_size. apply strict_spec_alt. split; [set_solver|].
    intros Heq. assert (n ∈ U ∖ st.1) as Hin by set_solver.
    rewrite <-Heq in Hin. set_solver.
Qed.
End Subtree_facts.

Lemma Sorted_NoDup_elements_unique (l1 l2 : list string) :
  Sorted String.le l1 → Sorted String.le l2 → NoDup l1 → NoDup l2 →
  (∀ x, x ∈ l1 ↔ x ∈ l2) → l1 = l2.
Proof.
  intros Hs1 Hs2 Hn1 Hn2 Hel.
  apply (Sorted_unique String.le); [done..|].
  by apply NoDup_Permutation.
Qed.

(** [Subtree] terminates, with the sorted duplicate-free list of the
    names reachable from [root]. *)
Lemma Subtree_reachable (r : DAGResult) (dag : DAG) (root : string) :
  ∃ out,
    Subtree r dag root = Some out
    ∧ (∀ x, x ∈ out ↔ rtc (edge dag) root x)
    ∧ NoDup out
    ∧ Sorted String.le out.
Proof.
  unfold Subtree.
  destruct (dfs_total dag ({[root]} ∪ nodes dag) (S (size ({[root]} ∪ nodes dag)))
              root (∅, [])) as [[seen out] Hrun].
  { intros x y _ Hxy. apply elem_of_union_r, elem_of_nodes. right. by exists x. }
  { set_solver. }
  { simpl. apply Nat.lt_succ_r, subseteq_size. set_solver. }
  rewrite Hrun. simpl.
  destruct (dfs_sound _ _ _ _ _ Hrun) as (new & Ho & Hs & Hnd & _ & Hr & Hp & Hc).
  simpl in Ho, Hs, Hr, Hc. subst out. rewrite union_empty_r_L in Hs. subst seen.
  clear Hrun.
  assert (∀ x, rtc (edge dag) root x → x ∈ (list_to_set new : gset string)) as Hclosed.
  { apply rtc_ind_r.
    - apply Hr. left.
    - intros y z _ Hyz IH. apply elem_of_list_to_set in IH. by eapply Hc. }
  exists (sort_strings new). split_and!.
  - done.
  - intros x. rewrite elem_of_sort_strings. split.
    + intros Hx. destruct (Hp x Hx) as (s & ->%list_elem_of_singleton & ?). done.
    + intros Hx%Hclosed. by apply elem_of_list_to_set in Hx.
  - by apply sort_strings_NoDup.
  - apply Sorted_merge_sort; apply _.
Qed.

(** C5. [Subtree(d, root)] terminates and returns exactly the names
    reachable from [root] along the edges of [d], [root] among them,
    without duplicates and in ascending order.  The output is a function
    of [d] and [root] alone: it is the one sorted duplicate-free list of
    the reachable names, and the receiver does not influence it. *)
Theorem Subtree_spec (r : DAGResult) (dag : DAG) (root : string) :
  ∃ out,
    Subtree r dag root = Some out
    ∧ (∀ x, x ∈ out ↔ rtc (edge dag) root x)
    ∧ root ∈ out
    ∧ NoDup out
    ∧ Sorted String.le out
    ∧ (∀ r', Subtree r' dag root = Some out)
    ∧ (∀ out', Sorted String.le out' → NoDup out' →
         (∀ x, x ∈ out' ↔ rtc (edge dag) root x) → out' = out).
Proof.
  destruct (Subtree_reachable r dag root) as (out & Hrun & Hreach & Hnodup & Hsorted).
  exists out. split_and!; try done.
  - by apply Hreach.
  - intros out' Hsorted' Hnodup' Hout'.
    apply Sorted_NoDup_elements_unique; [done..|].
    intros x. by rewrite Hout', Hreach.
Qed.

(** ** Frontiers *)

Lemma Frontiers_loop_spec r dag rev jobs items :
  ∃ new,
    Frontiers_loop r dag rev jobs items = Some (items ++ new)
    ∧ FrontierItem.Job <$> new = filter (interesting r dag) jobs
    ∧ Forall (item_of r dag rev) new.
Proof.
  revert items. induction jobs as [|job jobs IH]; intros items; simpl.
  - exists []. by rewrite app_nil_r.
  - case_decide as Hsucc.
    { destruct (IH items) as (new & -> & Hjobs & Hnew). exists new. split_and!; [done| |done].
      rewrite filter_cons_False; [done|]. by intros [? _]. }
    case_decide as Hint.
    + destruct (Subtree_reachable r rev job) as (subtree & Hsub & _). rewrite Hsub. simpl.
      destruct (IH (items ++ [FrontierItem.Make job (JobResult.Status (get r job))
                                (Blockers r dag job) subtree r]))
        as (new & -> & Hjobs & Hnew).
      eexists (_ :: new). split_and!.
      * by rewrite <-app_assoc.
      * rewrite filter_cons_True by done. by rewrite fmap_cons, Hjobs.
      * constructor; [|done]. by split_and!.
    + destruct (IH items) as (new & -> & Hjobs & Hnew). exists new. split_and!; [done| |done].
      rewrite filter_cons_False; [done|]. by intros [_ ?].
Qed.

Lemma sort_items_perm items : sort_items items ≡ₚ items.
Proof. apply merge_sort_Permutation. Qed.

Lemma sort_items_sorted items : Sorted String.le (FrontierItem.Job <$> sort_items items).
Proof.
  apply (Sorted_fmap _ (λ a b, String.le (FrontierItem.Job a) (FrontierItem.Job b))); [done|].
  apply Sorted_merge_sort. intros a b. apply (total String.le).
Qed.

(** [sort.Slice] is not stable, but items with distinct jobs have only one
    arrangement in ascending job order. *)
Lemma sort_items_unique items items' :
  NoDup (FrontierItem.Job <$> items) → items' ≡ₚ items →
  Sorted (λ a b, String.le (FrontierItem.Job a) (FrontierItem.Job b)) items' →
  items' = sort_items items.
Proof.
  intros Hnodup Hperm Hsorted.
  set (R := λ a b, String.le (FrontierItem.Job a) (FrontierItem.Job b)).
  assert (Transitive R) as Htrans.
  { intros a b c. unfold R. apply transitivity. }
  apply (Sorted_unique_strong R).
  - intros a b Ha Hb Hab Hba.
    assert (FrontierItem.Job a = FrontierItem.Job b) as Hjob
      by (by apply (anti_symm String.le)).
    rewrite Hperm in Ha. rewrite sort_items_perm in Hb.
    clear -Hnodup Ha Hb Hjob. induction items as [|c items IH]; [by apply elem_of_nil in Ha|].
    rewrite fmap_cons in Hnodup. apply NoDup_cons in Hnodup as [Hc Hnodup].
    apply elem_of_cons in Ha as [->|Ha]; apply elem_of_cons in Hb as [->|Hb].
    + done.
    + destruct Hc. rewrite Hjob. apply list_elem_of_fmap. by exists b.
    + destruct Hc. rewrite <-Hjob. apply list_elem_of_fmap. by exists a.
    + by apply IH.
  - done.
  - apply Sorted_merge_sort. intros a b. apply (total String.le).
  - by rewrite Hperm, sort_items_perm.
Qed.

(** [Frontiers] terminates; its items are those of the interesting keys
    of [dag], one each, in ascending order of job name. *)
Lemma Frontiers_items o r dag :
  ∃ items,
    Frontiers o r dag = Some items
    ∧ (∀ job, job ∈ FrontierItem.Job <$> items ↔ job ∈ dom dag ∧ interesting r dag job)
    ∧ NoDup (FrontierItem.Job <$> items)
    ∧ Sorted String.le (FrontierItem.Job <$> items)
    ∧ Forall (item_of r dag (reverseDAG o r dag)) items.
Proof.
  unfold Frontiers.
  destruct (Frontiers_loop_spec r dag (reverseDAG o r dag) (range o 201 dag).*1 [])
    as (new & -> & Hjobs & Hnew). simpl.
  exists (sort_items new). split_and!.
  - done.
  - intros job. rewrite sort_items_perm, Hjobs, list_elem_of_filter, elem_of_range_keys.
    rewrite elem_of_dom. tauto.
  - rewrite sort_items_perm, Hjobs. apply NoDup_filter, NoDup_range_keys.
  - apply sort_items_sorted.
  - by rewrite sort_items_perm.
Qed.

Lemma interesting_unblocked r dag job :
  interesting r dag job ↔
  JobResult.Status (get r job) ≠ JobStatusSuccess
  ∧ (JobResult.Status (get r job) = JobStatusFailed
     ∨ JobResult.Status (get r job) = JobStatusInProgress
     ∨ ∀ dep, depends_on dag job dep → JobResult.Status (get r dep) = JobStatusSuccess).
Proof.
  unfold interesting. rewrite <-Blockers_nil.
  assert (length (Blockers r dag job) = 0 ↔ Blockers r dag job = []) as ->; [|done].
  split; [apply nil_length_inv|by intros ->].
Qed.

Lemma interesting_unblocked_Unknown r dag job :
  JobResult.Status (get r job) = JobStatusUnknown →
  (job ∈ dom dag ∧ interesting r dag job) ↔
  (job ∈ dom dag
   ∧ ∀ dep, depends_on dag job dep → JobResult.Status (get r dep) = JobStatusSuccess).
Proof. intros Hst. rewrite interesting_unblocked, Hst. intuition congruence. Qed.

(** C2. [Frontiers(d)] terminates.  It holds an item for a job exactly
    when the job is a key of [d] whose status is not [Success] and is
    [Failed], or [InProgress], or all of whose dependencies are [Success]
    (no unmet blocker).  So no item is for a [Success] job, every [Failed]
    and every [InProgress] job of [d] has its item, and the items come one
    per job in ascending order of job name, each with the job's status and
    blockers. *)
Theorem Frontiers_spec (o : MapOrder) (r : DAGResult) (dag : DAG) :
  ∃ items,
    Frontiers o r dag = Some items
    ∧ (∀ job, (∃ item, item ∈ items ∧ FrontierItem.Job item = job) ↔
         job ∈ dom dag
         ∧ JobResult.Status (get r job) ≠ JobStatusSuccess
         ∧ (JobResult.Status (get r job) = JobStatusFailed
            ∨ JobResult.Status (get r job) = JobStatusInProgress
            ∨ ∀ dep, depends_on dag job dep →
                JobResult.Status (get r dep) = JobStatusSuccess))
    ∧ (∀ item, item ∈ items →
         FrontierItem.Status item = JobResult.Status (get r (FrontierItem.Job item))
         ∧ FrontierItem.Status item ≠ JobStatusSuccess
         ∧ FrontierItem.BlockedBy item = Blockers r dag (FrontierItem.Job item))
    ∧ (∀ job, job ∈ dom dag →
         JobResult.Status (get r job) = JobStatusFailed
         ∨ JobResult.Status (get r job) = JobStatusInProgress →
         ∃ item, item ∈ items ∧ FrontierItem.Job item = job)
    ∧ Sorted String.le (FrontierItem.Job <$> items)
    ∧ NoDup (FrontierItem.Job <$> items).
Proof.
  destruct (Frontiers_items o r dag) as (items & Hrun & Hjobs & Hnodup & Hsorted & Hitems).
  assert (∀ job, (∃ item, item ∈ items ∧ FrontierItem.Job item = job) ↔
                 job ∈ dom dag ∧ interesting r dag job) as Hin.
  { intros job. rewrite <-Hjobs, list_elem_of_fmap. split; intros (item & ? & ?); by exists item. }
  exists items. split_and!; try done.
  - intros job. rewrite Hin, interesting_unblocked. tauto.
  - intros item Hitem.
    destruct (proj1 (Forall_forall _ _) Hitems item Hitem) as (Hst & Hbl & _).
    split_and!; [done| |done]. rewrite Hst.
    assert (FrontierItem.Job item ∈ dom dag ∧ interesting r dag (FrontierItem.Job item))
      as [_ [? _]]; [|done].
    apply Hin. by exists item.
  - intros job Hjob Hst. apply Hin. split; [done|].
    split; [destruct Hst as [-> | ->]; done|]. tauto.
Qed.

Lemma rtc_flip {A} (R : relation A) x y : rtc (flip R) x y ↔ rtc R y x.
Proof.
  split.
  - induction 1 as [|x y z Hxy _ IH]; [done|]. by eapply rtc_r.
  - induction 1 as [|x y z Hxy _ IH]; [done|]. by eapply rtc_r.
Qed.

Lemma tc_flip {A} (R : relation A) x y : tc (flip R) x y ↔ tc R y x.
Proof.
  split.
  - induction 1 as [x y Hxy|x y z Hxy _ IH]; [by apply tc_once|].
    eapply tc_r; [done|apply Hxy].
  - induction 1 as [x y Hxy|x y z Hxy _ IH]; [by apply tc_once|].
    eapply tc_r; [done|apply Hxy].
Qed.

(** Walking the reverse graph is walking the dependencies backwards. *)
Lemma rtc_reverseDAG o r dag x y :
  rtc (edge (reverseDAG o r dag)) x y ↔ rtc (depends_on dag) y x.
Proof.
  rewrite <-rtc_flip. split; apply rtc_subrel; intros a b; apply reverseDAG_edges.
Qed.

Lemma tc_reverseDAG o r dag x y :
  tc (edge (reverseDAG o r dag)) x y ↔ tc (depends_on dag) y x.
Proof.
  rewrite <-tc_flip.
  split; apply (tc_congruence id); intros a b; apply reverseDAG_edges.
Qed.

(** C4. The [Subtree] field of every item of [Frontiers(d)] is the result
    of [Subtree] on the reverse graph from the item's job: the sorted,
    duplicate-free list of the names reachable from the job along
    successor edges, which are the job itself and the jobs that depend on
    it, directly or through other jobs. *)
Theorem Frontiers_Subtree_spec (o : MapOrder) (r : DAGResult) (dag : DAG) :
  ∃ items,
    Frontiers o r dag = Some items
    ∧ ∀ item, item ∈ items →
        Subtree r (reverseDAG o r dag) (FrontierItem.Job item)
          = Some (FrontierItem.Subtree item)
        ∧ Sorted String.le (FrontierItem.Subtree item)
        ∧ NoDup (FrontierItem.Subtree item)
        ∧ (∀ x, x ∈ FrontierItem.Subtree item ↔
                rtc (successor dag) (FrontierItem.Job item) x)
        ∧ (∀ x, x ∈ FrontierItem.Subtree item ↔
                x = FrontierItem.Job item ∨ tc (depends_on dag) x (FrontierItem.Job item)).
Proof.
  destruct (Frontiers_items o r dag) as (items & Hrun & _ & _ & _ & Hitems).
  exists items. split; [done|]. intros item Hitem.
  destruct (proj1 (Forall_forall _ _) Hitems item Hitem) as (_ & _ & Hsub & _).
  destruct (Subtree_reachable r (reverseDAG o r dag) (FrontierItem.Job item))
    as (out & Hout & Hreach & Hnodup & Hsorted).
  rewrite Hsub in Hout. injection Hout as <-.
  split_and!; try done.
  - intros x. rewrite Hreach, rtc_reverseDAG. symmetry. apply (rtc_flip (depends_on dag)).
  - intros x. rewrite Hreach, rtc_reverseDAG, rtc_tc. intuition congruence.
Qed.

(** ** BoundarySubtrees *)

Section hasNotSuccessInSubtree_facts.
Variables (r : DAGResult) (succ : DAG).

Lemma unfinished_below_step x :
  unfinished_below r succ x ↔
  ∃ s, s ∈ edges succ x ∧ (isSuccess r s = false ∨ unfinished_below r succ s).
Proof.
  split.
  - intros (y & Hxy & Hy). destruct Hxy as [x y Hxy|x s y Hxs Hsy].
    + exists y. split; [done|by left].
    + exists s. split; [done|]. right. by exists y.
  - intros (s & Hs & [Hns|(y & Hsy & Hy)]).
    + exists s. split; [by apply tc_once|done].
    + exists y. split; [by eapply tc_l|done].
Qed.

(** *** The deferred delete restores [visiting] *)

Lemma succ_loop_visiting rec ss :
  (∀ s w b w', rec s w = Some (b, w') → visiting w' = visiting w) →
  ∀ w b w', succ_loop r rec ss w = Some (b, w') → visiting w' = visiting w.
Proof.
  intros Hrec. induction ss as [|s ss IH]; intros w b w' Hrun; simpl in Hrun.
  - by injection Hrun as <- <-.
  - destruct (isSuccess r s); simpl in Hrun; [|by injection Hrun as <- <-].
    destruct (rec s w) as [[b1 w1]|] eqn:Hs; simpl in Hrun; [|done].
    apply Hrec in Hs. destruct b1.
    + injection Hrun as <- <-. done.
    + apply IH in Hrun. congruence.
Qed.

Lemma hasNotSuccessInSubtree_visiting fuel job w b w' :
  hasNotSuccessInSubtree r succ fuel job w = Some (b, w') → visiting w' = visiting w.
Proof.
  revert job w b w'. induction fuel as [|fuel IH]; intros job w b w' Hrun; simpl in Hrun.
  - done.
  - destruct (memo w !! job) as [v|]; [by injection Hrun as <- <-|].
    case_decide as Hvis; [by injection Hrun as <- <-|].
    destruct (succ_loop _ _ _ _) as [[b1 w1]|] eqn:Hloop; simpl in Hrun; [|done].
    injection Hrun as <- <-. simpl.
    apply (succ_loop_visiting _ _ IH) in Hloop. rewrite Hloop. simpl. set_solver.
Qed.

(** *** The counter suffices *)

Lemma succ_loop_total (U : gset string) bound rec ss :
  (∀ s w, s ∈ U → size (U ∖ visiting w) < bound → is_Some (rec s w)) →
  (∀ s w b w', rec s w = Some (b, w') → visiting w' = visiting w) →
  ∀ w, (∀ s, s ∈ ss → s ∈ U) → size (U ∖ visiting w) < bound →
    is_Some (succ_loop r rec ss w).
Proof.
  intros Hrec Hvis. induction ss as [|s ss IH]; intros w Hss Hsize; simpl.
  - by eexists.
  - destruct (isSuccess r s); simpl; [|by eexists].
    destruct (Hrec s w) as [[b1 w1] Hs]; [apply Hss; left|done|].
    rewrite Hs. simpl. destruct b1; [by eexists|].
    apply IH.
    + intros s' Hs'. apply Hss. by right.
    + apply Hvis in Hs. by rewrite Hs.
Qed.

Lemma hasNotSuccessInSubtree_total (U : gset string) fuel job w :
  (∀ x y, x ∈ U → edge succ x y → y ∈ U) →
  job ∈ U → size (U ∖ visiting w) < fuel →
  is_Some (hasNotSuccessInSubtree r succ fuel job w).
Proof.
  intros HU. revert job w.
  induction fuel as [|fuel IH]; intros job w Hjob Hfuel; [lia|]. simpl.
  destruct (memo w !! job) as [v|]; [by eexists|].
  case_decide as Hvis; [by eexists|].
  destruct (succ_loop_total U fuel (hasNotSuccessInSubtree r succ fuel) (edges succ job))
    with (w := Walk (memo w) ({[job]} ∪ visiting w)) as [[b1 w1] Hloop].
  - done.
  - intros s w0 b w0'. apply hasNotSuccessInSubtree_visiting.
  - intros s Hs. by eapply HU.
  - simpl. apply Nat.lt_le_trans with (size (U ∖ visiting w)); [|lia].
    apply subset_size. apply strict_spec_alt. split; [set_solver|].
    intros Heq. assert (job ∈ U ∖ visiting w) as Hin by set_solver.
    rewrite <-Heq in Hin. set_solver.
  - rewrite Hloop. simpl. by eexists.
Qed.

(** *** What an answer means, in any graph *)

Lemma succ_loop_sound rec ss :
  (∀ s w b w', rec s w = Some (b, w') → memo_sound r succ w →
     memo_sound r succ w' ∧ (b = true → unfinished_below r succ s)) →
  ∀ w b w', succ_loop r rec ss w = Some (b, w') → memo_sound r succ w →
    memo_sound r succ w'
    ∧ (b = true → ∃ s, s ∈ ss ∧ (isSuccess r s = false ∨ unfinished_below r succ s))
    ∧ (b = false → ∀ s, s ∈ ss → isSuccess r s = true).
Proof.
  intros Hrec. induction ss as [|s ss IH]; intros w b w' Hrun Hw; simpl in Hrun.
  - injection Hrun as <- <-. split_and!; [done..|]. by intros _ ? ?%elem_of_nil.
  - destruct (isSuccess r s) eqn:Hsucc; simpl in Hrun.
    + destruct (rec s w) as [[b1 w1]|] eqn:Hs; simpl in Hrun; [|done].
      destruct (Hrec _ _ _ _ Hs Hw) as [Hw1 Hb1]. destruct b1.
      * injection Hrun as <- <-. split_and!; [done| |done].
        intros _. exists s. split; [left|]. right. by apply Hb1.
      * destruct (IH _ _ _ Hrun Hw1) as (Hw' & Htrue & Hfalse). split_and!; [done| |].
        -- intros Hb. destruct (Htrue Hb) as (s' & ? & ?). exists s'. split; [by right|done].
        -- intros Hb s' [->|Hs']%elem_of_cons; [done|by apply Hfalse].
    + injection Hrun as <- <-. split_and!; [done| |done].
      intros _. exists s. split; [left|by left].
Qed.

Lemma hasNotSuccessInSubtree_sound fuel job w b w' :
  hasNotSuccessInSubtree r succ fuel job w = Some (b, w') → memo_sound r succ w →
  memo_sound r succ w'
  ∧ (b = true → unfinished_below r succ job)
  ∧ (b = false → job ∉ visiting w → ∀ s, s ∈ edges succ job → isSuccess r s = true).
Proof.
  revert job w b w'. induction fuel as [|fuel IH]; intros job w b w' Hrun Hw; simpl in Hrun.
  - done.
  - destruct (memo w !! job) as [v|] eqn:Hmemo.
    { injection Hrun as <- <-. split_and!; [done|..].
      - intros ->. by apply Hw.
      - intros -> _. by apply Hw. }
    case_decide as Hvis; [by injection Hrun as <- <-|].
    destruct (succ_loop _ _ _ _) as [[b1 w1]|] eqn:Hloop; simpl in Hrun; [|done].
    injection Hrun as <- <-.
    apply succ_loop_sound in Hloop as (Hw1 & Htrue & Hfalse).
    + assert (b1 = true → unfinished_below r succ job) as Hjob.
      { intros Hb. by apply unfinished_below_step, Htrue. }
      split_and!; [|done|by intros Hb _; apply Hfalse].
      split; intros x; simpl; destruct (decide (x = job)) as [->|Hne].
      * rewrite lookup_insert_eq. intros [= ->]. by apply Hjob.
      * rewrite lookup_insert_ne by done. apply Hw1.
      * rewrite lookup_insert_eq. intros [= ->]. by apply Hfalse.
      * rewrite lookup_insert_ne by done. apply Hw1.
    + intros s w0 b0 w0' Hs Hw0. destruct (IH _ _ _ _ Hs Hw0) as (? & ? & _). done.
    + split; apply Hw.
Qed.

(** *** What [false] means in an acyclic graph *)

Hypothesis succ_acyclic : ∀ x, ¬ tc (edge succ) x x.

Lemma succ_loop_complete rec ss :
  (∀ s w b w', rec s w = Some (b, w') → visiting w' = visiting w) →
  (∀ s w b w', rec s w = Some (b, w') → memo_complete r succ w →
     (∀ v, v ∈ visiting w → tc (edge succ) v s) →
     memo_complete r succ w' ∧ (b = false → ¬ unfinished_below r succ s)) →
  ∀ w b w', succ_loop r rec ss w = Some (b, w') → memo_complete r succ w →
    (∀ v s, v ∈ visiting w → s ∈ ss → tc (edge succ) v s) →
    memo_complete r succ w'
    ∧ (b = false → ∀ s, s ∈ ss → isSuccess r s = true ∧ ¬ unfinished_below r succ s).
Proof.
  intros Hvis Hrec. induction ss as [|s ss IH]; intros w b w' Hrun Hw Hstack; simpl in Hrun.
  - injection Hrun as <- <-. split; [done|]. by intros _ ? ?%elem_of_nil.
  - destruct (isSuccess r s) eqn:Hsucc; simpl in Hrun; [|by injection Hrun as <- <-].
    destruct (rec s w) as [[b1 w1]|] eqn:Hs; simpl in Hrun; [|done].
    destruct (Hrec _ _ _ _ Hs Hw) as [Hw1 Hb1].
    { intros v Hv. apply Hstack; [done|left]. }
    destruct b1; [by injection Hrun as <- <-|].
    destruct (IH _ _ _ Hrun Hw1) as [Hw' Hfalse].
    { intros v s'. rewrite (Hvis _ _ _ _ Hs). intros Hv Hs'. apply Hstack; [done|by right]. }
    split; [done|]. intros Hb s' [->|Hs']%elem_of_cons; [by split; [|apply Hb1]|by apply Hfalse].
Qed.

Lemma hasNotSuccessInSubtree_complete fuel job w b w' :
  hasNotSuccessInSubtree r succ fuel job w = Some (b, w') → memo_complete r succ w →
  (∀ v, v ∈ visiting w → tc (edge succ) v job) →
  memo_complete r succ w' ∧ (b = false → ¬ unfinished_below r succ job).
Proof.
  revert job w b w'.
  induction fuel as [|fuel IH]; intros job w b w' Hrun Hw Hstack; simpl in Hrun.
  - done.
  - destruct (memo w !! job) as [v|] eqn:Hmemo.
    { injection Hrun as <- <-. split; [done|]. intros ->. by apply Hw. }
    case_decide as Hvis.
    { destruct (succ_acyclic job). by apply Hstack. }
    destruct (succ_loop _ _ _ _) as [[b1 w1]|] eqn:Hloop; simpl in Hrun; [|done].
    injection Hrun as <- <-.
    apply succ_loop_complete in Hloop as [Hw1 Hfalse].
    + assert (b1 = false → ¬ unfinished_below r succ job) as Hjob.
      { intros Hb (s & Hs & Hbelow)%unfinished_below_step.
        destruct (Hfalse Hb s Hs) as [Hsucc Hnot].
        destruct Hbelow as [Hns|?]; [congruence|done]. }
      split; [|done]. intros x. simpl. destruct (decide (x = job)) as [->|Hne].
      * rewrite lookup_insert_eq. intros [= ->]. by apply Hjob.
      * rewrite lookup_insert_ne by done. apply Hw1.
    + intros s w0 b0 w0'. apply hasNotSuccessInSubtree_visiting.
    + intros s w0 b0 w0'. apply IH.
    + done.
    + simpl. intros v s [->%elem_of_singleton|Hv]%elem_of_union Hs.
      * by apply tc_once.
      * eapply tc_r; [by apply Hstack|done].
Qed.
End hasNotSuccessInSubtree_facts.

Section BoundarySubtrees_facts.
Variables (r : DAGResult) (succ : DAG) (U : gset string).
Hypothesis U_closed : ∀ x y, x ∈ U → edge succ x y → y ∈ U.

(** The loop over the keys: it appends, in key order, successful jobs
    with something unfinished below them; it misses none that has an
    unfinished direct successor and, in an acyclic graph, none at all. *)
Lemma BoundarySubtrees_loop_spec fuel jobs w out :
  size U < fuel → (∀ job, job ∈ jobs → job ∈ U) →
  visiting w = ∅ → memo_sound r succ w →
  ∃ new,
    BoundarySubtrees_loop r succ fuel jobs w out = Some (out ++ new)
    ∧ sublist new jobs
    ∧ (∀ x, x ∈ new → isSuccess r x = true ∧ unfinished_below r succ x)
    ∧ (∀ x s, x ∈ jobs → isSuccess r x = true → s ∈ edges succ x →
         isSuccess r s = false → x ∈ new)
    ∧ ((∀ x, ¬ tc (edge succ) x x) → memo_complete r succ w →
         ∀ x, x ∈ jobs → isSuccess r x = true → unfinished_below r succ x → x ∈ new).
Proof.
  intros Hfuel. revert w out.
  induction jobs as [|job jobs IH]; intros w out Hjobs Hvis Hw; simpl.
  { exists []. rewrite app_nil_r. split_and!; [done..| | |].
    - by intros ? ?%elem_of_nil.
    - by intros ?? ?%elem_of_nil.
    - by intros _ _ ? ?%elem_of_nil. }
  assert (∀ job', job' ∈ jobs → job' ∈ U) as Hjobs' by (intros ??; apply Hjobs; by right).
  destruct (isSuccess r job) eqn:Hsucc; simpl.
  - destruct (hasNotSuccessInSubtree_total r succ U fuel job w) as [[b w1] Hrun].
    { done. } { apply Hjobs. left. }
    { rewrite Hvis, difference_empty_L. done. }
    rewrite Hrun. simpl.
    pose proof (hasNotSuccessInSubtree_visiting _ _ _ _ _ _ _ Hrun) as Hvis1.
    rewrite Hvis in Hvis1.
    destruct (hasNotSuccessInSubtree_sound _ _ _ _ _ _ _ Hrun Hw) as (Hw1 & Htrue & Hfalse).
    destruct (IH w1 (if b then out ++ [job] else out) Hjobs' Hvis1 Hw1)
      as (new & Hloop & Hsub & Hnew & Hdirect & Hall).
    assert ((∀ x, ¬ tc (edge succ) x x) → memo_complete r succ w →
            memo_complete r succ w1 ∧ (b = false → ¬ unfinished_below r succ job))
      as Hcomplete.
    { intros Hacyclic Hmemo.
      apply (hasNotSuccessInSubtree_complete r succ Hacyclic _ _ _ _ _ Hrun Hmemo).
      intros v. rewrite Hvis. by intros ?%elem_of_empty. }
    destruct b.
    + exists (job :: new). split_and!.
      * by rewrite Hloop, <-app_assoc.
      * by apply sublist_skip.
      * intros x [->|Hx]%elem_of_cons; [by split; [|apply Htrue]|by apply Hnew].
      * intros x s [->|Hx]%elem_of_cons Hx' Hs Hns; [left|right; by eapply Hdirect].
      * intros Hacyclic Hmemo x [->|Hx]%elem_of_cons Hx' Hbelow; [left|right].
        apply Hall; [done|by apply Hcomplete|done..].
    + exists new. split_and!.
      * done.
      * by apply sublist_cons.
      * done.
      * intros x s [->|Hx]%elem_of_cons Hx' Hs Hns; [|by eapply Hdirect].
        rewrite Hfalse in Hns; [done..| |done]. rewrite Hvis. by intros ?%elem_of_empty.
      * intros Hacyclic Hmemo x [->|Hx]%elem_of_cons Hx' Hbelow.
        -- by destruct (proj2 (Hcomplete Hacyclic Hmemo)).
        -- apply Hall; [done|by apply Hcomplete|done..].
  - destruct (IH w out Hjobs' Hvis Hw) as (new & Hloop & Hsub & Hnew & Hdirect & Hall).
    exists new. split_and!.
    + done.
    + by apply sublist_cons.
    + done.
    + intros x s [->|Hx]%elem_of_cons Hx' Hs Hns; [congruence|by eapply Hdirect].
    + intros Hacyclic Hmemo x [->|Hx]%elem_of_cons Hx' Hbelow; [congruence|].
      by apply Hall.
Qed.
End BoundarySubtrees_facts.

(** [BoundarySubtrees] terminates on every graph, with a sorted list of
    distinct successful keys that have an unfinished job downstream.  It
    holds every successful key with an unfinished direct successor and,
    when the graph is acyclic, every successful key with an unfinished job
    anywhere downstream. *)
Lemma BoundarySubtrees_members o r dag :
  ∃ out,
    BoundarySubtrees o r dag = Some out
    ∧ Sorted String.le out
    ∧ NoDup out
    ∧ (∀ job, job ∈ out →
         job ∈ dom dag ∧ isSuccess r job = true
         ∧ ∃ y, tc (depends_on dag) y job ∧ isSuccess r y = false)
    ∧ (∀ job s, job ∈ dom dag → isSuccess r job = true →
         depends_on dag s job → isSuccess r s = false → job ∈ out)
    ∧ (acyclic dag → ∀ job y, job ∈ dom dag → isSuccess r job = true →
         tc (depends_on dag) y job → isSuccess r y = false → job ∈ out).
Proof.
  unfold BoundarySubtrees.
  destruct (BoundarySubtrees_loop_spec r (reverseDAG o r dag) (nodes dag))
    with (fuel := S (size (nodes dag))) (jobs := (range o 266 dag).*1)
         (w := Walk ∅ ∅) (out := @nil string)
    as (new & Hloop & Hsub & Hnew & Hdirect & Hall).
  { intros x y _ Hxy. rewrite <-(reverseDAG_nodes o r). apply elem_of_nodes. right. by exists x. }
  { lia. }
  { intros job Hjob%elem_of_range_keys. apply elem_of_nodes. left. by apply elem_of_dom. }
  { done. }
  { split; intros x; simpl; by rewrite lookup_empty. }
  rewrite Hloop. simpl. exists (sort_strings new).
  assert (∀ job, job ∈ (range o 266 dag).*1 ↔ job ∈ dom dag) as Hkeys.
  { intros job. by rewrite elem_of_range_keys, elem_of_dom. }
  split_and!.
  - done.
  - apply Sorted_merge_sort; apply _.
  - apply sort_strings_NoDup. eapply sublist_NoDup; [|done]. apply NoDup_range_keys.
  - intros job Hjob. apply (proj1 (elem_of_sort_strings _ _)) in Hjob.
    destruct (Hnew job Hjob) as [Hsucc (y & Hy & Hns)]. split_and!.
    + apply (proj1 (Hkeys job)). by apply (elem_of_sublist new).
    + done.
    + exists y. split; [|done]. by apply (tc_reverseDAG o r).
  - intros job s Hjob Hsucc Hs Hns. apply elem_of_sort_strings.
    apply (Hdirect job s); [by apply Hkeys|done|by apply reverseDAG_edges|done].
  - intros Hacyclic job y Hjob Hsucc Hy Hns. apply elem_of_sort_strings. apply Hall.
    + intros x Hx%tc_reverseDAG. by apply (Hacyclic x).
    + intros x. simpl. by rewrite lookup_empty.
    + by apply Hkeys.
    + done.
    + exists y. split; [by apply tc_reverseDAG|done].
Qed.

(** C3. For an acyclic [d], [BoundarySubtrees(d)] terminates and holds a
    job exactly when it is a key of [d] with status [Success] and some job
    reachable from it along successor edges is not [Success]; the list is
    sorted, without duplicates, and empty when every job of [d] is
    [Success]. *)
Theorem BoundarySubtrees_spec (o : MapOrder) (r : DAGResult) (dag : DAG) :
  acyclic dag →
  ∃ out,
    BoundarySubtrees o r dag = Some out
    ∧ (∀ job, job ∈ out ↔
         job ∈ dom dag
         ∧ JobResult.Status (get r job) = JobStatusSuccess
         ∧ ∃ y, tc (successor dag) job y
                ∧ JobResult.Status (get r y) ≠ JobStatusSuccess)
    ∧ Sorted String.le out
    ∧ NoDup out
    ∧ ((∀ job, job ∈ dom dag → JobResult.Status (get r job) = JobStatusSuccess) →
         out = []).
Proof.
  intros Hacyclic.
  destruct (BoundarySubtrees_members o r dag)
    as (out & Hrun & Hsorted & Hnodup & Hsound & _ & Hall).
  assert (∀ job, job ∈ out ↔
            job ∈ dom dag
            ∧ JobResult.Status (get r job) = JobStatusSuccess
            ∧ ∃ y, tc (successor dag) job y
                   ∧ JobResult.Status (get r y) ≠ JobStatusSuccess) as Hout.
  { intros job. split.
    - intros (Hjob & Hsucc%isSuccess_status & y & Hy & Hns%isSuccess_false)%Hsound.
      split_and!; [done..|]. exists y. split; [|done]. by apply (tc_flip (depends_on dag)).
    - intros (Hjob & Hsucc%isSuccess_status & y & Hy & Hns%isSuccess_false).
      apply (Hall Hacyclic job y); [done..| |done]. by apply (tc_flip (depends_on dag)) in Hy. }
  exists out. split_and!; [done..|].
  intros Hok. destruct out as [|job out]; [done|].
  destruct (proj1 (Hout job)) as (_ & _ & y & Hy & Hns); [left|].
  destruct Hns. apply Hok.
  apply (tc_flip (depends_on dag)) in Hy. apply tc_rtc, rtc_inv in Hy as [->|(z & Hz & _)].
  - apply (proj1 (Hout job)). left.
  - apply elem_of_edges_Some in Hz as (l & ? & _). apply elem_of_dom. eauto.
Qed.

(** ** Names without an entry *)

(** C9. A name without an entry in the result is read as a job with
    status [Unknown] and nil error, hence as not [Success].  No query
    fails on it: [Blockers], [Subtree], [Frontiers] and [BoundarySubtrees]
    return on every input; [Blockers] reports such a name among the
    blockers of every job that lists it, [Frontiers] files it by the rule
    for [Unknown] jobs, and [BoundarySubtrees] holds every successful job
    of which it is a direct successor. *)
Theorem missing_entry_spec (o : MapOrder) (r : DAGResult) (dag : DAG) (name : string) :
  r !! name = None →
  get r name = JobResult.Make name JobStatusUnknown None
  ∧ isSuccess r name = false
  ∧ (∀ job, depends_on dag job name → name ∈ Blockers r dag job)
  ∧ (∀ root, ∃ out, Subtree r dag root = Some out)
  ∧ (∃ items,
       Frontiers o r dag = Some items
       ∧ ((∃ item, item ∈ items ∧ FrontierItem.Job item = name) ↔
            name ∈ dom dag
            ∧ ∀ dep, depends_on dag name dep →
                JobResult.Status (get r dep) = JobStatusSuccess)
       ∧ ∀ item, item ∈ items → FrontierItem.Job item = name →
           FrontierItem.Status item = JobStatusUnknown)
  ∧ (∃ out,
       BoundarySubtrees o r dag = Some out
       ∧ ∀ job, job ∈ dom dag → JobResult.Status (get r job) = JobStatusSuccess →
           depends_on dag name job → job ∈ out).
Proof.
  intros Hname.
  assert (get r name = JobResult.Make name JobStatusUnknown None) as Hget.
  { unfold get. by rewrite Hname. }
  assert (isSuccess r name = false) as Hns.
  { apply isSuccess_false. by rewrite Hget. }
  split_and!.
  - done.
  - done.
  - intros job Hjob. apply elem_of_Blockers. split; [done|]. by rewrite Hget.
  - intros root. destruct (Subtree_reachable r dag root) as (out & ? & _). by exists out.
  - destruct (Frontiers_items o r dag) as (items & Hrun & Hjobs & _ & _ & Hitems).
    exists items. split_and!.
    + done.
    + rewrite <-(interesting_unblocked_Unknown r dag name) by (by rewrite Hget).
      rewrite <-Hjobs, list_elem_of_fmap. split; intros (item & ? & ?); by exists item.
    + intros item Hitem Hjob.
      destruct (proj1 (Forall_forall _ _) Hitems item Hitem) as (-> & _).
      by rewrite Hjob, Hget.
  - destruct (BoundarySubtrees_members o r dag) as (out & Hrun & _ & _ & _ & Hdirect & _).
    exists out. split; [done|]. intros job Hjob Hsucc%isSuccess_status Hdep.
    by apply (Hdirect job name).
Qed.

(** ** The statements on concrete runs *)

(** A graph whose dependencies all have a smaller rank has no cycle. *)
Lemma ranked_acyclic (rank : string → nat) (dag : DAG) :
  map_Forall (λ job deps, Forall (λ dep, rank dep < rank job) deps) dag → acyclic dag.
Proof.
  intros Hrank.
  assert (∀ x y, depends_on dag x y → rank y < rank x) as Hstep.
  { intros x y (deps & Hx & Hy)%elem_of_edges_Some.
    by apply (proj1 (Forall_forall _ _) (Hrank x deps Hx)). }
  assert (∀ x y, tc (depends_on dag) x y → rank y < rank x) as Htc.
  { induction 1 as [x y Hxy|x y z Hxy _ IH]; [by apply Hstep|].
    apply Hstep in Hxy. lia. }
  intros x Hx%Htc. lia.
Qed.

Lemma dag5_acyclic : acyclic dag5.
Proof. apply (ranked_acyclic rank5). apply (bool_decide_unpack _). by vm_compute. Qed.

Lemma result5_allocated : allocated result5.
Proof. apply (bool_decide_unpack _). by vm_compute. Qed.

(** C1 as worded fails in both directions: a result whose only job is
    [Unknown] is ready, and a fully successful run that timed out is
    neither ready nor successful. *)
Lemma IsReady_IsSuccessful_counterexample :
  let unknown := result_of [("A", JobStatusUnknown)] in
  let timed_out :=
    TimeoutError (λ _, "60") 60000000000%Z (result_of [("A", JobStatusSuccess)]) in
  (IsReady canonical_order unknown = Returns true ∧ ¬ every_job_Success unknown)
  ∧ (every_job_Success timed_out
     ∧ IsReady canonical_order timed_out = Returns false
     ∧ IsSuccessful canonical_order timed_out = Returns false).
Proof.
  intros unknown timed_out. split_and!.
  - by vm_compute.
  - intros H. destruct (H "A" (Some (JobResult.Make "A" JobStatusUnknown None)))
      as (j & [= <-] & Hs); done.
  - intros key p Hkey. unfold timed_out, TimeoutError.
    rewrite lookup_insert_ne by done. unfold result_of. simpl.
    intros [[<- <-]|[_ Hempty]]%lookup_insert_Some; [by eexists|].
    by rewrite lookup_empty in Hempty.
  - by vm_compute.
  - by vm_compute.
Qed.

(** C10 as worded fails on a dependency that is not a key: the reverse
    graph gains it as a key, and keeps it when reversed again. *)
Lemma reverseDAG_counterexample :
  let d : DAG := {["A" := ["B"]]} in
  let rev := reverseDAG canonical_order ∅ d in
  let back := reverseDAG canonical_order ∅ rev in
  ("B" ∉ dom d) ∧ "B" ∈ dom rev ∧ "B" ∈ dom back
  ∧ rev = {["A" := []; "B" := ["A"]]} ∧ back = {["A" := ["B"]; "B" := []]}.
Proof.
  intros d rev back. split_and!.
  - unfold d. rewrite dom_singleton_L. by intros [=]%elem_of_singleton.
  - by vm_compute.
  - by vm_compute.
  - by vm_compute.
  - by vm_compute.
Qed.

Lemma closed_by_keys (dag : DAG) :
  map_Forall (λ _ deps, Forall (λ dep, dep ∈ dom dag) deps) dag → closed dag.
Proof.
  intros Hall job dep (deps & Hjob & Hdep)%elem_of_edges_Some.
  by apply (proj1 (Forall_forall _ _) (Hall job deps Hjob)).
Qed.

Lemma dag5_closed : closed dag5.
Proof. apply closed_by_keys. apply (bool_decide_unpack _). by vm_compute. Qed.

(** The run of the specification in which B is not ready: B is the one
    frontier, and both A and C are successful jobs with unfinished work
    downstream (D, behind C, was skipped). *)
Example Frontiers_result5 :
  (λ item, (FrontierItem.Job item, FrontierItem.Status item,
            FrontierItem.BlockedBy item, FrontierItem.Subtree item))
    <$> default [] (Frontiers canonical_order result5 dag5)
  = [("B", JobStatusInProgress, [], ["B"; "D"; "E"])].
Proof. by vm_compute. Qed.

Example BoundarySubtrees_result5 :
  BoundarySubtrees canonical_order result5 dag5 = Some ["A"; "C"].
Proof. by vm_compute. Qed.

Example BoundarySubtrees_result5_ok :
  BoundarySubtrees canonical_order result5_ok dag5 = Some [].
Proof. by vm_compute. Qed.

Example Blockers_result5 :
  Blockers result5 dag5 "D" = ["B"] ∧ Blockers result5 dag5 "E" = ["D"]
  ∧ Blockers result5 dag5 "B" = [].
Proof. by vm_compute. Qed.

Example IsReady_result5_ok :
  IsReady canonical_order result5_ok = Returns true
  ∧ IsSuccessful canonical_order result5_ok = Returns true
  ∧ IsReady canonical_order result5 = Returns false.
Proof. by vm_compute. Qed.

(** On a graph with a cycle the guard on [visiting] can record [false]
    for a job that does have unfinished work downstream, and the answer
    depends on the order in which the keys come.  Here A and C depend on
    each other and B, which is [Unknown], depends on C.  With the keys
    enumerated as C, A, B the search from C enters A, meets C on the stack
    and records [false] for A, although B is reachable from A through C;
    with the keys enumerated as B, A, C both A and C are reported. *)
Example BoundarySubtrees_cyclic :
  let d : DAG := list_to_map [("A", ["C"]); ("B", ["C"]); ("C", ["A"])] in
  let r := result_of [("A", JobStatusSuccess); ("B", JobStatusUnknown);
                      ("C", JobStatusSuccess)] in
  (map_to_list d).*1 = ["C"; "A"; "B"]
  ∧ reverseDAG canonical_order r d = list_to_map [("A", ["C"]); ("B", []); ("C", ["A"; "B"])]
  ∧ BoundarySubtrees canonical_order r d = Some ["C"]
  ∧ BoundarySubtrees reversed_order r d = Some ["A"; "C"].
Proof. by vm_compute. Qed.

(** C3 on the running example. *)
Lemma BoundarySubtrees_spec_witness :
  acyclic dag5
  ∧ ∃ out,
      BoundarySubtrees canonical_order result5 dag5 = Some out
      ∧ (∀ job, job ∈ out ↔
           job ∈ dom dag5
           ∧ JobResult.Status (get result5 job) = JobStatusSuccess
           ∧ ∃ y, tc (successor dag5) job y
                  ∧ JobResult.Status (get result5 y) ≠ JobStatusSuccess)
      ∧ Sorted String.le out
      ∧ NoDup out
      ∧ ((∀ job, job ∈ dom dag5 → JobResult.Status (get result5 job) = JobStatusSuccess) →
           out = []).
Proof.
  split; [exact dag5_acyclic|].
  exact (BoundarySubtrees_spec canonical_order result5 dag5 dag5_acyclic).
Defined.

(** C7 on the running example. *)
Lemma TimeoutError_spec_witness :
  allocated result5
  ∧ IsFailed canonical_order (TimeoutError (λ _, "60") 60000000000%Z result5) = Returns true.
Proof.
  split; [exact result5_allocated|].
  exact (proj2 (proj2 (proj2 (proj2
           (TimeoutError_spec (λ _, "60") canonical_order 60000000000%Z result5))))
           result5_allocated).
Defined.

(** C8 on the running example. *)
Lemma FirstInProgress_spec_witness :
  allocated result5
  ∧ ((∃ key j, FirstInProgress canonical_order result5 = Returns (Some j)
               ∧ result5 !! key = Some (Some j)
               ∧ JobResult.Status j = JobStatusInProgress
               ∧ ∀ key' j', result5 !! key' = Some (Some j') →
                   JobResult.Status j' = JobStatusInProgress → String.le key key')
     ∨ (FirstInProgress canonical_order result5 = Returns None
        ∧ ∀ key j, result5 !! key = Some (Some j) →
            JobResult.Status j ≠ JobStatusInProgress)).
Proof.
  split; [exact result5_allocated|].
  exact (FirstInProgress_spec canonical_order result5 result5_allocated).
Defined.

(** C9 on that run. *)
Lemma missing_entry_spec_witness :
  result2 !! "B" = None
  ∧ get result2 "B" = JobResult.Make "B" JobStatusUnknown None
  ∧ isSuccess result2 "B" = false
  ∧ (∀ job, depends_on dag2 job "B" → "B" ∈ Blockers result2 dag2 job)
  ∧ (∀ root, ∃ out, Subtree result2 dag2 root = Some out)
  ∧ (∃ items,
       Frontiers canonical_order result2 dag2 = Some items
       ∧ ((∃ item, item ∈ items ∧ FrontierItem.Job item = "B") ↔
            "B" ∈ dom dag2
            ∧ ∀ dep, depends_on dag2 "B" dep →
                JobResult.Status (get result2 dep) = JobStatusSuccess)
       ∧ ∀ item, item ∈ items → FrontierItem.Job item = "B" →
           FrontierItem.Status item = JobStatusUnknown)
  ∧ (∃ out,
       BoundarySubtrees canonical_order result2 dag2 = Some out
       ∧ ∀ job, job ∈ dom dag2 → JobResult.Status (get result2 job) = JobStatusSuccess →
           depends_on dag2 "B" job → job ∈ out).
Proof.
  split; [reflexivity|].
  exact (missing_entry_spec canonical_order result2 dag2 "B" eq_refl).
Defined.

Example missing_entry_result2 :
  Blockers (∅ : DAGResult) dag2 "B" = ["A"]
  ∧ BoundarySubtrees canonical_order result2 dag2 = Some ["A"]
  ∧ FrontierItem.Job <$> default [] (Frontiers canonical_order result2 dag2) = ["B"].
Proof. by vm_compute. Qed.

(** C10 on the running example, where every dependency is a key. *)
Lemma reverseDAG_spec_witness :
  closed dag5
  ∧ dom (reverseDAG canonical_order result5 dag5) = dom dag5
  ∧ dom (reverseDAG canonical_order result5 (reverseDAG canonical_order result5 dag5))
    = dom dag5.
Proof.
  split; [exact dag5_closed|].
  exact (proj2 (proj2 (proj2 (proj2
           (reverseDAG_spec canonical_order canonical_order result5 result5 dag5))))
           dag5_closed).
Defined.

(** * Further properties of the result model *)

(** ** Aggregate predicates on results without nil entries *)

Lemma allocated_range o site (r : DAGResult) :
  allocated r → Forall (λ kp, is_Some kp.2) (range o site r).
Proof.
  intros Hr. apply Forall_forall. intros [key p] Hin%elem_of_range. by apply (Hr key p).
Qed.

Lemma index_lookup (r : DAGResult) key j : index r key = Some j ↔ r !! key = Some (Some j).
Proof.
  unfold index. destruct (r !! key) as [p|]; simpl; [|done]. split; congruence.
Qed.

Lemma IsReady_true o r :
  IsReady o r = Returns true ↔
  ∀ key p, r !! key = Some p → ∃ j, p = Some j ∧ passes_IsReady (JobResult.Status j).
Proof.
  unfold IsReady. rewrite IsReady_loop_true, Forall_forall. split.
  - intros H key p Hkey.
    destruct (H key) as (j & Hj%index_lookup & Hs); [apply elem_of_orderedJobs; eauto|].
    exists j. split; [congruence|done].
  - intros H key [p Hkey]%elem_of_orderedJobs.
    destruct (H key p Hkey) as (j & -> & Hs). exists j. by rewrite index_lookup.
Qed.

Lemma IsSuccessful_true o r :
  IsSuccessful o r = Returns true ↔
  ∀ key p, r !! key = Some p → ∃ j, p = Some j ∧ JobResult.Status j = JobStatusSuccess.
Proof.
  unfold IsSuccessful. rewrite IsSuccessful_loop_true, Forall_forall. split.
  - intros H key p Hkey. apply (H (key, p)). by apply elem_of_range.
  - intros H [key p] Hkey%elem_of_range. by apply (H key p).
Qed.

Lemma IsReady_loop_allocated (r : DAGResult) keys :
  Forall (λ key, is_Some (index r key)) keys →
  ∃ b, IsReady_loop r keys = Returns b.
Proof.
  induction 1 as [|key keys [j Hj] _ [b IH]]; simpl; [by eexists|].
  rewrite Hj. destruct (_ || _); by eexists.
Qed.

Lemma IsReady_allocated o r :
  allocated r →
  ∃ b, IsReady o r = Returns b
       ∧ (b = true ↔
          ∀ key j, r !! key = Some (Some j) → passes_IsReady (JobResult.Status j)).
Proof.
  intros Hr. destruct (IsReady_loop_allocated r (orderedJobs o r)) as [b Hb].
  { apply Forall_forall. intros key [p Hkey]%elem_of_orderedJobs.
    destruct (Hr key p Hkey) as [j ->]. exists j. by apply index_lookup. }
  exists b. split; [done|]. fold (IsReady o r) in Hb. destruct b.
  - split; [|done]. intros _ key j Hkey.
    destruct (proj1 (IsReady_true o r) Hb key _ Hkey) as (j' & [= <-] & ?). done.
  - split; [done|]. intros Hall. rewrite (proj2 (IsReady_true o r)) in Hb; [done|].
    intros key p Hkey. destruct (Hr key p Hkey) as [j ->]. exists j. split; [done|].
    by eapply Hall.
Qed.

Lemma IsSuccessful_loop_allocated l :
  Forall (λ kp, is_Some kp.2) l → ∃ b, IsSuccessful_loop l = Returns b.
Proof.
  induction 1 as [|[key p] l [j Hj] _ [b IH]]; simpl in *; [by eexists|].
  subst p. case_decide; by eexists.
Qed.

Lemma IsSuccessful_allocated o r :
  allocated r →
  ∃ b, IsSuccessful o r = Returns b
       ∧ (b = true ↔
          ∀ key j, r !! key = Some (Some j) → JobResult.Status j = JobStatusSuccess).
Proof.
  intros Hr.
  destruct (IsSuccessful_loop_allocated (range o 147 r)) as [b Hb];
    [by apply allocated_range|].
  exists b. split; [done|]. fold (IsSuccessful o r) in Hb. destruct b.
  - split; [|done]. intros _ key j Hkey.
    destruct (proj1 (IsSuccessful_true o r) Hb key _ Hkey) as (j' & [= <-] & ?). done.
  - split; [done|]. intros Hall. rewrite (proj2 (IsSuccessful_true o r)) in Hb; [done|].
    intros key p Hkey. destruct (Hr key p Hkey) as [j ->]. exists j. split; [done|].
    by eapply Hall.
Qed.

Lemma FirstError_loop_allocated l :
  Forall (λ kp, is_Some kp.2) l →
  ∃ x, FirstError_loop l = Returns x
       ∧ (x = None ↔ Forall (λ kp, ∀ j, kp.2 = Some j → JobResult.Error j = None) l)
       ∧ (∀ e, x = Some e →
            Exists (λ kp, ∃ j, kp.2 = Some j ∧ JobResult.Error j = Some e) l).
Proof.
  induction 1 as [|[key p] l [j Hj] _ (x & IH & Hnone & Hsome)]; simpl in *.
  - exists None. split_and!; [done| |done]. split; [constructor|done].
  - subst p. destruct (JobResult.Error j) as [e|] eqn:He.
    + exists (Some e). split_and!; [done| |].
      * split; [done|]. intros [Hj _]%Forall_cons. specialize (Hj j eq_refl). congruence.
      * intros e' [= <-]. left. by exists j.
    + exists x. split_and!; [done| |].
      * rewrite Hnone, Forall_cons. simpl. split; [|by intros [_ ?]].
        intros Hl. split; [|done]. by intros j' [= <-].
      * intros e Hx. right. by apply Hsome.
Qed.

Lemma FirstError_allocated o r :
  allocated r →
  ∃ x, FirstError o r = Returns x
       ∧ (x = None ↔ ∀ key j, r !! key = Some (Some j) → JobResult.Error j = None)
       ∧ (∀ e, x = Some e →
            ∃ key j, r !! key = Some (Some j) ∧ JobResult.Error j = Some e).
Proof.
  intros Hr. unfold FirstError.
  destruct (FirstError_loop_allocated (range o 101 r)) as (x & Hx & Hnone & Hsome);
    [by apply allocated_range|].
  exists x. split_and!; [done| |].
  - rewrite Hnone, Forall_forall. split.
    + intros H key j Hkey. apply (H (key, Some j)); [by apply elem_of_range|done].
    + intros H [key p] Hkey%elem_of_range j Hp. simpl in Hp. subst p. by eapply H.
  - intros e (kp & Hin & j & Hp & He)%Hsome%Exists_exists. destruct kp as [key p].
    simpl in Hp. subst p. apply elem_of_range in Hin. eauto.
Qed.

Lemma FirstInProgress_none o r :
  (∀ key p, r !! key = Some p →
     ∃ j, p = Some j ∧ JobResult.Status j ≠ JobStatusInProgress) →
  FirstInProgress o r = Returns None.
Proof.
  intros Hall. unfold FirstInProgress.
  assert (Forall (λ key, ∃ j, index r key = Some j
                              ∧ JobResult.Status j ≠ JobStatusInProgress)
            (orderedJobs o r)) as Hkeys.
  { apply Forall_forall. intros key [p Hkey]%elem_of_orderedJobs.
    destruct (Hall key p Hkey) as (j & -> & Hs). exists j. by rewrite index_lookup. }
  induction Hkeys as [|key keys (j & Hj & Hs) _ IH]; simpl; [done|].
  rewrite Hj. unfold JobResult.IsInProgress. by rewrite bool_decide_eq_false_2.
Qed.

(** ** newDAGResult *)

Lemma lookup_newDAGResult dag job :
  newDAGResult dag !! job
  = if decide (job ∈ dom dag)
    then Some (Some (JobResult.Make job JobStatusUnknown None)) else None.
Proof.
  unfold newDAGResult. rewrite map_lookup_imap. case_decide as Hjob.
  - apply elem_of_dom in Hjob as [deps ->]. done.
  - apply not_elem_of_dom in Hjob. by rewrite Hjob.
Qed.

Lemma newDAGResult_entry dag key p :
  newDAGResult dag !! key = Some p →
  key ∈ dom dag ∧ p = Some (JobResult.Make key JobStatusUnknown None).
Proof. rewrite lookup_newDAGResult. case_decide; [|done]. by intros [= <-]. Qed.

Lemma get_newDAGResult dag job :
  get (newDAGResult dag) job = JobResult.Make job JobStatusUnknown None.
Proof. unfold get. rewrite lookup_newDAGResult. by case_decide. Qed.

(** X1. The result [newDAGResult] builds has exactly the keys of the
    graph, each with a record named after its key, of status [Unknown] and
    without error.  On it, in every enumeration order: [IsReady] is true
    although nothing has run, [IsFailed] is false, [FirstError] and
    [FirstInProgress] are nil, [IsSuccessful] is true only for the empty
    graph, and [IsTimeouted] is true exactly when the graph has a job
    called "timeout_error". *)
Theorem newDAGResult_spec (o : MapOrder) (dag : DAG) :
  dom (newDAGResult dag) = dom dag
  ∧ (∀ job, job ∈ dom dag →
       newDAGResult dag !! job = Some (Some (JobResult.Make job JobStatusUnknown None)))
  ∧ allocated (newDAGResult dag)
  ∧ IsReady o (newDAGResult dag) = Returns true
  ∧ IsFailed o (newDAGResult dag) = Returns false
  ∧ FirstError o (newDAGResult dag) = Returns None
  ∧ FirstInProgress o (newDAGResult dag) = Returns None
  ∧ (IsSuccessful o (newDAGResult dag) = Returns true ↔ dag = ∅)
  ∧ (IsTimeouted (newDAGResult dag) = true ↔ timeoutError ∈ dom dag).
Proof.
  split_and!.
  - apply set_eq. intros job. rewrite elem_of_dom, lookup_newDAGResult.
    case_decide; split; by eauto using is_Some_None.
  - intros job Hjob. rewrite lookup_newDAGResult. by rewrite decide_True.
  - apply newDAGResult_allocated.
  - apply IsReady_true. intros key p (_ & ->)%newDAGResult_entry. by eexists.
  - destruct (IsFailed_allocated o (newDAGResult dag)) as (b & -> & Hb);
      [apply newDAGResult_allocated|].
    destruct b; [|done]. destruct (proj1 Hb eq_refl) as (key & j & Hkey & Hs).
    apply newDAGResult_entry in Hkey as [_ [= ->]]. done.
  - destruct (FirstError_allocated o (newDAGResult dag)) as (x & -> & Hnone & _);
      [apply newDAGResult_allocated|].
    f_equal. apply Hnone. by intros key j [_ [= ->]]%newDAGResult_entry.
  - apply FirstInProgress_none. intros key p (_ & ->)%newDAGResult_entry. by eexists.
  - rewrite IsSuccessful_true. split.
    + intros Hall. apply map_empty. intros job.
      destruct (dag !! job) as [deps|] eqn:Hjob; [|done].
      destruct (Hall job (Some (JobResult.Make job JobStatusUnknown None)))
        as (j & [= <-] & Hs); [|done].
      rewrite lookup_newDAGResult, decide_True; [done|]. apply elem_of_dom. eauto.
    + intros -> key p [Hkey _]%newDAGResult_entry. by rewrite dom_empty_L in Hkey.
  - unfold IsTimeouted. rewrite lookup_newDAGResult. case_decide; split; done.
Qed.

Lemma Blockers_newDAGResult dag job :
  Blockers (newDAGResult dag) dag job = sort_strings (edges dag job).
Proof.
  rewrite Blockers_unfold. f_equal.
  induction (edges dag job) as [|dep deps IH]; [done|].
  rewrite filter_cons_True, IH; [done|].
  apply isSuccess_false. by rewrite get_newDAGResult.
Qed.

(** X2. Before anything has run, the frontier is the set of jobs without
    dependencies: on the result of [newDAGResult], [Blockers] lists all
    the dependencies of a job, [Frontiers] holds exactly the keys whose
    dependency list is empty (each [Unknown] and unblocked), and
    [BoundarySubtrees] is empty. *)
Theorem newDAGResult_views (o : MapOrder) (dag : DAG) :
  (∀ job, Blockers (newDAGResult dag) dag job = sort_strings (edges dag job))
  ∧ (∃ items,
       Frontiers o (newDAGResult dag) dag = Some items
       ∧ (∀ job, job ∈ FrontierItem.Job <$> items ↔ dag !! job = Some [])
       ∧ ∀ item, item ∈ items →
           FrontierItem.Status item = JobStatusUnknown
           ∧ FrontierItem.BlockedBy item = [])
  ∧ BoundarySubtrees o (newDAGResult dag) dag = Some [].
Proof.
  assert (∀ job, job ∈ dom dag ∧ interesting (newDAGResult dag) dag job ↔
                 dag !! job = Some []) as Hint.
  { intros job. unfold interesting.
    rewrite get_newDAGResult, Blockers_newDAGResult, elem_of_dom. simpl.
    assert (length (sort_strings (edges dag job)) = 0 ↔ edges dag job = []) as ->.
    { rewrite <-sort_strings_nil. split; [apply nil_length_inv|by intros ->]. }
    unfold edges. destruct (dag !! job) as [deps|]; simpl.
    - split.
      + intros (_ & _ & [?|[?|Hnil]]); [done..|]. by rewrite Hnil.
      + intros [= ->]. by eauto.
    - split; [by intros [[] _]|done]. }
  split_and!.
  - apply Blockers_newDAGResult.
  - destruct (Frontiers_items o (newDAGResult dag) dag)
      as (items & Hrun & Hjobs & _ & _ & Hitems).
    exists items. split_and!; [done| |].
    + intros job. by rewrite Hjobs.
    + intros item Hitem.
      destruct (proj1 (Forall_forall _ _) Hitems item Hitem) as (Hst & Hbl & _).
      rewrite Hst, Hbl, get_newDAGResult. split; [done|].
      assert (dag !! FrontierItem.Job item = Some []) as Hjob.
      { apply Hint, Hjobs, list_elem_of_fmap. by exists item. }
      rewrite Blockers_newDAGResult. unfold edges. by rewrite Hjob.
  - destruct (BoundarySubtrees_members o (newDAGResult dag) dag)
      as (out & -> & _ & _ & Hsound & _).
    f_equal. destruct out as [|job out]; [done|].
    destruct (Hsound job) as (_ & Hsucc%isSuccess_status & _); [left|].
    by rewrite get_newDAGResult in Hsucc.
Qed.

(** X3. On a result without nil entries [FirstError] returns, in every
    enumeration order: nil exactly when no entry carries an error; else
    the error of some entry; and, when a single entry carries an error,
    that error. *)
Theorem FirstError_spec (o : MapOrder) (r : DAGResult) :
  allocated r →
  ∃ x,
    FirstError o r = Returns x
    ∧ (x = None ↔ ∀ key j, r !! key = Some (Some j) → JobResult.Error j = None)
    ∧ (∀ e, x = Some e → ∃ key j, r !! key = Some (Some j) ∧ JobResult.Error j = Some e)
    ∧ (∀ key j e, r !! key = Some (Some j) → JobResult.Error j = Some e →
         (∀ key' j', r !! key' = Some (Some j') → key' ≠ key → JobResult.Error j' = None) →
         x = Some e).
Proof.
  intros Hr. destruct (FirstError_allocated o r Hr) as (x & Hrun & Hnone & Hsome).
  exists x. split_and!; [done..|].
  intros key j e Hkey He Hothers. destruct x as [e'|].
  - destruct (Hsome e' eq_refl) as (key' & j' & Hkey' & He').
    destruct (decide (key' = key)) as [->|Hne]; [congruence|].
    rewrite (Hothers key' j' Hkey' Hne) in He'. done.
  - rewrite (proj1 Hnone eq_refl key j Hkey) in He. done.
Qed.

(** X4. On a result without nil entries [IsFailed] returns true exactly
    when some entry has status [Failed], whatever its error field holds
    and whatever order the entries are enumerated in. *)
Theorem IsFailed_spec (o : MapOrder) (r : DAGResult) :
  allocated r →
  ∃ b,
    (∀ o', IsFailed o' r = Returns b)
    ∧ (b = true ↔
       ∃ key j, r !! key = Some (Some j) ∧ JobResult.Status j = JobStatusFailed).
Proof.
  intros Hr. destruct (IsFailed_allocated o r Hr) as (b & Hrun & Hb).
  exists b. split; [|done]. intros o'.
  destruct (IsFailed_allocated o' r Hr) as (b' & -> & Hb'). f_equal.
  destruct b, b'; try done.
  - by apply Hb', Hb.
  - symmetry. by apply Hb, Hb'.
Qed.

(** X5. When [IsSuccessful] returns true, then in every enumeration order
    [IsReady] returns true, [IsNotReady] and [IsFailed] return false and
    [FirstInProgress] returns nil. *)
Theorem IsSuccessful_implies (o o' : MapOrder) (r : DAGResult) :
  IsSuccessful o r = Returns true →
  IsSuccessful o' r = Returns true
  ∧ IsNotSuccessful o' r = Returns false
  ∧ IsReady o' r = Returns true
  ∧ IsNotReady o' r = Returns false
  ∧ IsFailed o' r = Returns false
  ∧ FirstInProgress o' r = Returns None.
Proof.
  intros Hall. pose proof (proj1 (IsSuccessful_true o r) Hall) as Hok. clear Hall.
  assert (IsSuccessful o' r = Returns true) as Hs by by apply IsSuccessful_true.
  assert (IsReady o' r = Returns true) as Hready.
  { apply IsReady_true. intros key p Hkey. destruct (Hok key p Hkey) as (j & -> & Hs').
    exists j. split; [done|]. unfold passes_IsReady. by rewrite Hs'. }
  assert (allocated r) as Hr.
  { intros key p Hkey. destruct (Hok key p Hkey) as (j & -> & _). by eexists. }
  split_and!.
  - done.
  - unfold IsNotSuccessful. by rewrite Hs.
  - done.
  - unfold IsNotReady. by rewrite Hready.
  - destruct (IsFailed_allocated o' r Hr) as (b & -> & Hb). destruct b; [|done].
    destruct (proj1 Hb eq_refl) as (key & j & Hkey & Hf).
    destruct (Hok key _ Hkey) as (j' & [= <-] & Hs'). congruence.
  - apply FirstInProgress_none. intros key p Hkey.
    destruct (Hok key p Hkey) as (j & -> & Hs'). exists j. split; [done|]. by rewrite Hs'.
Qed.

Section timeout_not_ready.
Variable format_seconds : Duration → string.

(** X6. A result on which a timeout was recorded is never ready: after
    [TimeoutError], on a result without nil entries and in every
    enumeration order, [IsReady] and [IsSuccessful] return false,
    [IsNotReady] returns true and [FirstError] returns an error. *)
Theorem TimeoutError_not_ready (o : MapOrder) (deadline : Duration) (r : DAGResult) :
  allocated r →
  IsReady o (TimeoutError format_seconds deadline r) = Returns false
  ∧ IsNotReady o (TimeoutError format_seconds deadline r) = Returns true
  ∧ IsSuccessful o (TimeoutError format_seconds deadline r) = Returns false
  ∧ ∃ e, FirstError o (TimeoutError format_seconds deadline r) = Returns (Some e).
Proof.
  intros Hr%(TimeoutError_allocated format_seconds deadline).
  set (r' := TimeoutError format_seconds deadline r) in *.
  assert (∃ j e, r' !! timeoutError = Some (Some j)
                 ∧ JobResult.Status j = JobStatusFailed
                 ∧ JobResult.Error j = Some e) as (j & e & Hj & Hs & He).
  { unfold r', TimeoutError. rewrite lookup_insert_eq. by eexists _, _. }
  assert (IsReady o r' = Returns false) as Hready.
  { destruct (IsReady_allocated o r' Hr) as (b & -> & Hb). destruct b; [|done].
    destruct (proj1 Hb eq_refl _ _ Hj) as (_ & _ & Hne). done. }
  split_and!.
  - done.
  - unfold IsNotReady. by rewrite Hready.
  - destruct (IsSuccessful_allocated o r' Hr) as (b & -> & Hb). destruct b; [|done].
    rewrite (proj1 Hb eq_refl _ _ Hj) in Hs. done.
  - destruct (FirstError_allocated o r' Hr) as (x & -> & Hnone & _).
    destruct x as [e'|]; [by exists e'|].
    rewrite (proj1 Hnone eq_refl _ _ Hj) in He. done.
Qed.
End timeout_not_ready.

(** ** The views read the result only through the statuses of the graph's names *)

Lemma Blockers_agree r r' dag job :
  (∀ dep, dep ∈ edges dag job → isSuccess r dep = isSuccess r' dep) →
  Blockers r dag job = Blockers r' dag job.
Proof.
  intros Hagree. rewrite !Blockers_unfold. f_equal.
  induction (edges dag job) as [|dep deps IH]; [done|].
  rewrite !filter_cons, (Hagree dep) by left.
  rewrite IH; [done|]. intros dep' Hdep'. apply Hagree. by right.
Qed.

Section agree.
Variables (r r' : DAGResult) (succ : DAG) (U : gset string).
Hypothesis U_agree : ∀ x, x ∈ U → isSuccess r x = isSuccess r' x.
Hypothesis U_closed : ∀ x y, x ∈ U → edge succ x y → y ∈ U.

Lemma succ_loop_agree rec rec' ss w :
  (∀ s w, s ∈ U → rec s w = rec' s w) → (∀ s, s ∈ ss → s ∈ U) →
  succ_loop r rec ss w = succ_loop r' rec' ss w.
Proof.
  intros Hrec. revert w. induction ss as [|s ss IH]; intros w Hss; simpl; [done|].
  rewrite <-(U_agree s), <-(Hrec s) by (apply Hss; left).
  destruct (negb (isSuccess r s)); [done|].
  destruct (rec s w) as [[[] w1]|]; simpl; [done| |done].
  apply IH. intros s' Hs'. apply Hss. by right.
Qed.

Lemma hasNotSuccessInSubtree_agree fuel job w :
  job ∈ U →
  hasNotSuccessInSubtree r succ fuel job w = hasNotSuccessInSubtree r' succ fuel job w.
Proof.
  revert job w. induction fuel as [|fuel IH]; intros job w Hjob; simpl; [done|].
  destruct (memo w !! job); [done|]. case_decide; [done|].
  rewrite (succ_loop_agree _ (hasNotSuccessInSubtree r' succ fuel)); [done|by auto|].
  intros s Hs. by eapply U_closed.
Qed.

Lemma BoundarySubtrees_loop_agree fuel jobs w out :
  (∀ job, job ∈ jobs → job ∈ U) →
  BoundarySubtrees_loop r succ fuel jobs w out
  = BoundarySubtrees_loop r' succ fuel jobs w out.
Proof.
  revert w out. induction jobs as [|job jobs IH]; intros w out Hjobs; simpl; [done|].
  assert (∀ job', job' ∈ jobs → job' ∈ U) as Hjobs' by (intros ??; apply Hjobs; by right).
  rewrite <-(U_agree job), <-hasNotSuccessInSubtree_agree by (apply Hjobs; left).
  destruct (negb (isSuccess r job)); [by apply IH|].
  destruct (hasNotSuccessInSubtree r succ fuel job w) as [[b w1]|]; simpl; [|done].
  by apply IH.
Qed.
End agree.

Lemma BoundarySubtrees_agree o r r' dag :
  (∀ x, x ∈ nodes dag → isSuccess r x = isSuccess r' x) →
  BoundarySubtrees o r dag = BoundarySubtrees o r' dag.
Proof.
  intros Hagree. unfold BoundarySubtrees.
  change (reverseDAG o r' dag) with (reverseDAG o r dag).
  rewrite (BoundarySubtrees_loop_agree r r' (reverseDAG o r dag) (nodes dag)); [done..| |].
  - intros x y _ Hxy. rewrite <-(reverseDAG_nodes o r). apply elem_of_nodes. right. by exists x.
  - intros job Hjob%elem_of_range_keys. apply elem_of_nodes. left. by apply elem_of_dom.
Qed.

(** The subtree over the reverse graph does not depend on how the reverse
    graph was enumerated into being. *)
Lemma Subtree_reverseDAG_order o o' r r' dag job :
  Subtree r (reverseDAG o r dag) job = Subtree r' (reverseDAG o' r' dag) job.
Proof.
  destruct (Subtree_reachable r (reverseDAG o r dag) job) as (out & -> & Hout & Hnd & Hs).
  destruct (Subtree_reachable r' (reverseDAG o' r' dag) job)
    as (out' & -> & Hout' & Hnd' & Hs').
  f_equal. apply Sorted_NoDup_elements_unique; [done..|].
  intros x. by rewrite Hout, Hout', !rtc_reverseDAG.
Qed.

Lemma fmap_determined {A B C} (f : A → B) (g : A → C) (l l' : list A) :
  f <$> l = f <$> l' →
  (∀ a a', a ∈ l → a' ∈ l' → f a = f a' → g a = g a') →
  g <$> l = g <$> l'.
Proof.
  revert l'. induction l as [|a l IH]; intros [|a' l'] Hf Hg; try done.
  injection Hf as Ha Hl. rewrite !fmap_cons. f_equal.
  - apply Hg; [left|left|done].
  - apply IH; [done|]. intros b b' Hb Hb'. apply Hg; by right.
Qed.

(** Two runs of [Frontiers] on results that agree on the statuses of the
    names of the graph give the same items, up to the back pointer. *)
Lemma Frontiers_views o o' r r' dag :
  (∀ x, x ∈ nodes dag → JobResult.Status (get r x) = JobResult.Status (get r' x)) →
  fmap (M := list) item_view <$> Frontiers o r dag
  = fmap (M := list) item_view <$> Frontiers o' r' dag.
Proof.
  intros Hagree.
  assert (∀ x, x ∈ nodes dag → isSuccess r x = isSuccess r' x) as Hsucc.
  { intros x Hx. unfold isSuccess. by rewrite (Hagree x Hx). }
  assert (∀ job, job ∈ dom dag → Blockers r dag job = Blockers r' dag job) as Hbl.
  { intros job Hjob. apply Blockers_agree. intros dep Hdep. apply Hsucc.
    apply elem_of_nodes. right. by exists job. }
  destruct (Frontiers_items o r dag) as (items & -> & Hjobs & Hnd & Hs & Hitems).
  destruct (Frontiers_items o' r' dag) as (items' & -> & Hjobs' & Hnd' & Hs' & Hitems').
  simpl. f_equal.
  apply (fmap_determined FrontierItem.Job).
  - apply Sorted_NoDup_elements_unique; [done..|].
    intros job. rewrite Hjobs, Hjobs'. unfold interesting.
    split; intros [Hjob Hint]; (split; [done|]).
    + rewrite <-(Hbl job Hjob), <-(Hagree job); [done|]. apply elem_of_nodes. by left.
    + rewrite (Hbl job Hjob), (Hagree job); [done|]. apply elem_of_nodes. by left.
  - intros a a' Ha Ha' Hjob.
    destruct (proj1 (Forall_forall _ _) Hitems a Ha) as (Hst & Hb & Hsub & _).
    destruct (proj1 (Forall_forall _ _) Hitems' a' Ha') as (Hst' & Hb' & Hsub' & _).
    assert (FrontierItem.Job a ∈ dom dag) as Hkey.
    { apply (Hjobs (FrontierItem.Job a)), list_elem_of_fmap. by exists a. }
    rewrite (Subtree_reverseDAG_order o o' r r'), Hjob, Hsub' in Hsub.
    injection Hsub as Hsub. unfold item_view.
    rewrite Hst, Hst', Hb, Hb', Hsub, (Hbl _ Hkey), <-Hjob.
    rewrite (Hagree (FrontierItem.Job a)); [done|]. apply elem_of_nodes. by left.
Qed.

Section timeout_views.
Variable format_seconds : Duration → string.

Lemma get_TimeoutError deadline r job :
  job ≠ timeoutError → get (TimeoutError format_seconds deadline r) job = get r job.
Proof. intros Hne. unfold get, TimeoutError. by rewrite lookup_insert_ne. Qed.

(** X7. [TimeoutError] touches the entry "timeout_error" only, and the
    last call wins.  For a graph that has no name "timeout_error",
    recording a timeout changes none of the graph views: [Blockers] and
    [BoundarySubtrees] are the same, and [Frontiers] has the same items
    (job, status, blockers and subtree). *)
Theorem TimeoutError_preserves (o : MapOrder) (deadline : Duration)
    (r : DAGResult) (dag : DAG) :
  timeoutError ∉ nodes dag →
  (∀ job, job ≠ timeoutError →
     TimeoutError format_seconds deadline r !! job = r !! job
     ∧ get (TimeoutError format_seconds deadline r) job = get r job)
  ∧ (∀ deadline',
       TimeoutError format_seconds deadline (TimeoutError format_seconds deadline' r)
       = TimeoutError format_seconds deadline r)
  ∧ (∀ job, Blockers (TimeoutError format_seconds deadline r) dag job = Blockers r dag job)
  ∧ BoundarySubtrees o (TimeoutError format_seconds deadline r) dag
    = BoundarySubtrees o r dag
  ∧ fmap (M := list) item_view <$> Frontiers o (TimeoutError format_seconds deadline r) dag
    = fmap (M := list) item_view <$> Frontiers o r dag.
Proof.
  intros Hfree.
  assert (∀ x, x ∈ nodes dag →
            get (TimeoutError format_seconds deadline r) x = get r x) as Hget.
  { intros x Hx. apply get_TimeoutError. by intros ->. }
  assert (∀ x, x ∈ nodes dag →
            isSuccess (TimeoutError format_seconds deadline r) x = isSuccess r x) as Hsucc.
  { intros x Hx. unfold isSuccess. by rewrite Hget. }
  split_and!.
  - intros job Hne. split; [|by apply get_TimeoutError].
    unfold TimeoutError. by rewrite lookup_insert_ne.
  - intros deadline'. unfold TimeoutError. apply insert_insert_eq.
  - intros job. apply Blockers_agree. intros dep Hdep. apply Hsucc.
    apply elem_of_nodes. right. by exists job.
  - by apply BoundarySubtrees_agree.
  - apply Frontiers_views. intros x Hx. by rewrite Hget.
Qed.
End timeout_views.

(** X8. [orderedJobs] lists exactly the keys of the result, each once, in
    ascending order, and the list is the same whatever order the map is
    enumerated in. *)
Theorem orderedJobs_spec (o : MapOrder) (r : DAGResult) :
  (∀ key, key ∈ orderedJobs o r ↔ is_Some (r !! key))
  ∧ NoDup (orderedJobs o r)
  ∧ Sorted String.le (orderedJobs o r)
  ∧ length (orderedJobs o r) = size r
  ∧ ∀ o', orderedJobs o' r = orderedJobs o r.
Proof.
  assert (∀ o, NoDup (orderedJobs o r)) as Hnd.
  { intros o0. apply sort_strings_NoDup, NoDup_range_keys. }
  assert (∀ o, Sorted String.le (orderedJobs o r)) as Hs.
  { intros o0. apply Sorted_merge_sort; apply _. }
  split_and!.
  - intros key. apply elem_of_orderedJobs.
  - done.
  - done.
  - unfold orderedJobs. rewrite sort_strings_perm, length_fmap, range_perm.
    apply length_map_to_list.
  - intros o'. apply Sorted_NoDup_elements_unique; [done..|].
    intros key. by rewrite !elem_of_orderedJobs.
Qed.

Lemma item_view_inj a b :
  item_view a = item_view b → FrontierItem.dagResult a = FrontierItem.dagResult b → a = b.
Proof. destruct a, b. unfold item_view. simpl. by intros [= -> -> -> ->] ->. Qed.

(** X9. [Frontiers] returns the same list of items whatever order the
    maps are enumerated in: the final sort by job name and the sort inside
    [Subtree] remove every trace of the iteration order. *)
Theorem Frontiers_order_independent (o o' : MapOrder) (r : DAGResult) (dag : DAG) :
  Frontiers o r dag = Frontiers o' r dag.
Proof.
  pose proof (Frontiers_views o o' r r dag (λ _ _, eq_refl)) as Hviews.
  destruct (Frontiers_items o r dag) as (items & Hrun & _ & _ & _ & Hitems).
  destruct (Frontiers_items o' r dag) as (items' & Hrun' & _ & _ & _ & Hitems').
  rewrite Hrun, Hrun' in *. simpl in Hviews. injection Hviews as Hviews. f_equal.
  rewrite <-(list_fmap_id items), <-(list_fmap_id items').
  apply (fmap_determined item_view); [done|].
  intros a a' Ha Ha' Hview. apply item_view_inj; [done|].
  destruct (proj1 (Forall_forall _ _) Hitems a Ha) as (_ & _ & _ & Hr).
  destruct (proj1 (Forall_forall _ _) Hitems' a' Ha') as (_ & _ & _ & Hr').
  unfold id. congruence.
Qed.

(** X10. On an acyclic graph [BoundarySubtrees] returns the same list
    whatever order the maps are enumerated in. *)
Theorem BoundarySubtrees_order_independent (o o' : MapOrder) (r : DAGResult) (dag : DAG) :
  acyclic dag → BoundarySubtrees o r dag = BoundarySubtrees o' r dag.
Proof.
  intros Hacyclic.
  destruct (BoundarySubtrees_members o r dag) as (out & -> & Hs & Hnd & Hsound & _ & Hall).
  destruct (BoundarySubtrees_members o' r dag)
    as (out' & -> & Hs' & Hnd' & Hsound' & _ & Hall').
  f_equal. apply Sorted_NoDup_elements_unique; [done..|].
  intros job. split.
  - intros (Hjob & Hsucc & y & Hy & Hns)%Hsound. by apply (Hall' Hacyclic job y).
  - intros (Hjob & Hsucc & y & Hy & Hns)%Hsound'. by apply (Hall Hacyclic job y).
Qed.

(** ** Subtree at the edges *)

(** X11. [Subtree] of a root without outgoing edges (a missing key or an
    empty list) is the root alone.  The result is closed under the edges,
    so the subtree of any of its members is contained in it. *)
Theorem Subtree_closed (r : DAGResult) (dag : DAG) (root : string) :
  (edges dag root = [] → Subtree r dag root = Some [root])
  ∧ ∃ out,
      Subtree r dag root = Some out
      ∧ (∀ x y, x ∈ out → edge dag x y → y ∈ out)
      ∧ (∀ y, y ∈ out → ∃ out', Subtree r dag y = Some out' ∧ out' ⊆ out)
      ∧ length out ≤ size ({[root]} ∪ nodes dag).
Proof.
  destruct (Subtree_reachable r dag root) as (out & Hrun & Hout & Hnd & Hs).
  split.
  - intros Hleaf. rewrite Hrun. f_equal.
    apply Sorted_NoDup_elements_unique; [done|by repeat constructor|done| |].
    { apply NoDup_singleton. }
    intros x. rewrite Hout, list_elem_of_singleton. split; [|by intros ->].
    intros [->|(y & Hy & _)]%rtc_inv; [done|].
    unfold edge in Hy. rewrite Hleaf in Hy. by apply elem_of_nil in Hy.
  - exists out. split_and!; [done| | |].
    + intros x y Hx%Hout Hxy. apply Hout. by eapply rtc_r.
    + intros y Hy%Hout.
      destruct (Subtree_reachable r dag y) as (out' & Hrun' & Hout' & _).
      exists out'. split; [done|]. intros z Hz%Hout'. apply Hout. by etrans.
    + rewrite <-(size_list_to_set (C := gset string)) by done. apply subseteq_size.
      intros x Hx%elem_of_list_to_set%Hout.
      apply rtc_inv_r in Hx as [<-|(y & _ & Hy)]; [set_solver|].
      apply elem_of_union_r, elem_of_nodes. right. by exists y.
Qed.

(** ** AsMap *)

Lemma AsMap_snoc f item :
  AsMap (f ++ [item]) = <[FrontierItem.Job item := item]> (AsMap f).
Proof. unfold AsMap. by rewrite foldl_snoc. Qed.

Lemma AsMap_Some f job item :
  AsMap f !! job = Some item → item ∈ f ∧ FrontierItem.Job item = job.
Proof.
  induction f as [|a f IH] using rev_ind.
  { unfold AsMap. simpl. by rewrite lookup_empty. }
  rewrite AsMap_snoc, elem_of_app, list_elem_of_singleton.
  intros [[<- <-]|[_ Hf]]%lookup_insert_Some; [by auto|].
  destruct (IH Hf). auto.
Qed.

Lemma AsMap_None f job : AsMap f !! job = None ↔ job ∉ FrontierItem.Job <$> f.
Proof.
  induction f as [|a f IH] using rev_ind.
  - split; [by intros _ ?%elem_of_nil|]. intros _. unfold AsMap. simpl. apply lookup_empty.
  - rewrite AsMap_snoc, lookup_insert_None, IH, fmap_app, elem_of_app.
    simpl. rewrite list_elem_of_singleton. intuition congruence.
Qed.

Lemma AsMap_NoDup f item :
  NoDup (FrontierItem.Job <$> f) → item ∈ f → AsMap f !! FrontierItem.Job item = Some item.
Proof.
  induction f as [|a f IH] using rev_ind; [by intros _ ?%elem_of_nil|].
  rewrite fmap_app, AsMap_snoc. simpl.
  intros (Hnd & Ha & _)%NoDup_app [Hin|Hin]%elem_of_app;
    [|apply list_elem_of_singleton in Hin as ->].
  - rewrite lookup_insert_ne; [by apply IH|]. intros Heq.
    apply (Ha (FrontierItem.Job item)); [|rewrite Heq; left].
    apply list_elem_of_fmap. by exists item.
  - by rewrite lookup_insert_eq.
Qed.

(** X12. [AsMap] indexes a list of frontier items by job: a job is a key
    exactly when the list has an item for it, the value found under a job
    is an item of the list for that job, a later item replaces an earlier
    one for the same job, and when the jobs are distinct every item is
    found under its job.  On the output of [Frontiers] every item is found
    under its job. *)
Theorem AsMap_spec (o : MapOrder) (r : DAGResult) (dag : DAG) (f : Frontiers_t) :
  AsMap [] = ∅
  ∧ (∀ job, AsMap f !! job = None ↔ job ∉ FrontierItem.Job <$> f)
  ∧ (∀ job item, AsMap f !! job = Some item → item ∈ f ∧ FrontierItem.Job item = job)
  ∧ (∀ item, AsMap (f ++ [item]) !! FrontierItem.Job item = Some item)
  ∧ (NoDup (FrontierItem.Job <$> f) →
       ∀ item, item ∈ f → AsMap f !! FrontierItem.Job item = Some item)
  ∧ ∃ items,
      Frontiers o r dag = Some items
      ∧ size (AsMap items) = length items
      ∧ ∀ item, item ∈ items → AsMap items !! FrontierItem.Job item = Some item.
Proof.
  split_and!.
  - done.
  - intros job. apply AsMap_None.
  - intros job item. apply AsMap_Some.
  - intros item. by rewrite AsMap_snoc, lookup_insert_eq.
  - intros Hnd item. by apply AsMap_NoDup.
  - destruct (Frontiers_items o r dag) as (items & Hrun & _ & Hnd & _).
    exists items. split_and!; [done| |by intros item; apply AsMap_NoDup].
    clear Hrun. induction items as [|a items IH] using rev_ind; [done|].
    rewrite fmap_app in Hnd. apply NoDup_app in Hnd as (Hnd & Ha & _).
    rewrite AsMap_snoc, map_size_insert_None, length_app, (IH Hnd); [simpl; lia|].
    apply AsMap_None. intros Hin. apply (Ha _ Hin). left.
Qed.

(** ** Frontier items *)

Lemma IsBlocked_BlockedBy item :
  FrontierItem.IsBlocked item = true ↔ FrontierItem.BlockedBy item ≠ [].
Proof.
  unfold FrontierItem.IsBlocked. rewrite negb_true_iff, bool_decide_eq_false.
  split; intros H Hnil; apply H; [by rewrite Hnil|by apply nil_length_inv].
Qed.

(** X13. For every item of [Frontiers]: [IsBlocked] is true exactly when
    some dependency of its job is not [Success]; only [Failed] and
    [InProgress] items can be blocked, an [Unknown] or [Skipped] item is
    in the frontier with an empty [BlockedBy]. *)
Theorem Frontiers_IsBlocked (o : MapOrder) (r : DAGResult) (dag : DAG) :
  ∃ items,
    Frontiers o r dag = Some items
    ∧ ∀ item, item ∈ items →
        (FrontierItem.IsBlocked item = true ↔
           ∃ dep, depends_on dag (FrontierItem.Job item) dep
                  ∧ JobResult.Status (get r dep) ≠ JobStatusSuccess)
        ∧ (FrontierItem.IsBlocked item = true →
             FrontierItem.Status item = JobStatusFailed
             ∨ FrontierItem.Status item = JobStatusInProgress)
        ∧ (FrontierItem.Status item = JobStatusUnknown
           ∨ FrontierItem.Status item = JobStatusSkipped →
             FrontierItem.BlockedBy item = [] ∧ FrontierItem.IsBlocked item = false).
Proof.
  destruct (Frontiers_items o r dag) as (items & Hrun & Hjobs & _ & _ & Hitems).
  exists items. split; [done|]. intros item Hitem.
  destruct (proj1 (Forall_forall _ _) Hitems item Hitem) as (Hst & Hbl & _).
  assert (interesting r dag (FrontierItem.Job item)) as [Hns Hint].
  { apply (Hjobs (FrontierItem.Job item)), list_elem_of_fmap. by exists item. }
  rewrite <-Hst, <-Hbl in Hint.
  assert (length (FrontierItem.BlockedBy item) = 0 ↔ FrontierItem.BlockedBy item = [])
    as Hlen by (split; [apply nil_length_inv|by intros ->]).
  rewrite Hlen in Hint. split_and!.
  - rewrite IsBlocked_BlockedBy, Hbl. split.
    + intros Hne. destruct (Blockers r dag (FrontierItem.Job item)) as [|dep l] eqn:E; [done|].
      exists dep. apply elem_of_Blockers. rewrite E. left.
    + intros (dep & Hdep) Hnil. apply elem_of_Blockers in Hdep.
      rewrite Hnil in Hdep. by apply elem_of_nil in Hdep.
  - intros Hb%IsBlocked_BlockedBy. destruct Hint as [?|[?|?]]; by auto.
  - intros Hst'.
    assert (FrontierItem.BlockedBy item = []) as Hnil.
    { destruct Hint as [Hf|[Hf|?]]; [| |done]; destruct Hst' as [Hu|Hu]; congruence. }
    split; [done|]. apply not_true_is_false. by intros ?%IsBlocked_BlockedBy.
Qed.

(** ** Frontier and boundary of a stuck run *)

Lemma depends_on_sn dag x : acyclic dag → sn (depends_on dag) x.
Proof.
  intros Hacyclic. apply tc_finite_sn; [exact Hacyclic|].
  exists (elements (nodes dag)). intros y Hy. apply elem_of_elements, elem_of_nodes.
  right. induction Hy as [x y Hxy|x y z _ _ IH]; [by exists x|done].
Qed.

(** In an acyclic graph without dangling dependencies, below every job
    that is not [Success] there is one the frontier keeps. *)
Lemma stuck_has_frontier r dag job :
  acyclic dag → closed dag →
  job ∈ dom dag → JobResult.Status (get r job) ≠ JobStatusSuccess →
  ∃ job', job' ∈ dom dag ∧ interesting r dag job'.
Proof.
  intros Hacyclic Hclosed. induction (depends_on_sn dag job Hacyclic) as [job _ IH].
  intros Hjob Hns. destruct (Blockers r dag job) as [|dep l] eqn:E.
  - exists job. split; [done|]. split; [done|]. right; right. by rewrite E.
  - assert (dep ∈ Blockers r dag job) as [Hdep Hdns]%elem_of_Blockers by (rewrite E; left).
    apply (IH dep); [done|by eapply Hclosed|done].
Qed.

(** X14. On an acyclic graph whose dependencies are all keys, the frontier
    is empty exactly when every job is [Success]: a run that is not
    finished always has a frontier item to explain it. *)
Theorem Frontiers_empty_iff (o : MapOrder) (r : DAGResult) (dag : DAG) :
  acyclic dag → closed dag →
  (Frontiers o r dag = Some [] ↔
   ∀ job, job ∈ dom dag → JobResult.Status (get r job) = JobStatusSuccess).
Proof.
  intros Hacyclic Hclosed.
  destruct (Frontiers_items o r dag) as (items & -> & Hjobs & _).
  split.
  - intros [= ->] job Hjob.
    destruct (decide (JobResult.Status (get r job) = JobStatusSuccess)) as [|Hns]; [done|].
    destruct (stuck_has_frontier r dag job Hacyclic Hclosed Hjob Hns) as (job' & Hint).
    apply Hjobs in Hint. by apply elem_of_nil in Hint.
  - intros Hall. f_equal. destruct items as [|item items]; [done|].
    destruct (proj1 (Hjobs (FrontierItem.Job item))) as [Hjob [Hns _]]; [left|].
    destruct Hns. by apply Hall.
Qed.

(** X15. Frontier and boundary never overlap, and they touch: every
    successful dependency of a frontier job that is a key of the graph is
    a boundary job.  This holds on every graph, cyclic ones included. *)
Theorem Frontiers_BoundarySubtrees (o o' : MapOrder) (r : DAGResult) (dag : DAG) :
  ∃ items out,
    Frontiers o r dag = Some items
    ∧ BoundarySubtrees o' r dag = Some out
    ∧ (∀ item, item ∈ items → FrontierItem.Job item ∉ out)
    ∧ (∀ item dep, item ∈ items → depends_on dag (FrontierItem.Job item) dep →
         dep ∈ dom dag → JobResult.Status (get r dep) = JobStatusSuccess → dep ∈ out).
Proof.
  destruct (Frontiers_items o r dag) as (items & Hrun & Hjobs & _).
  destruct (BoundarySubtrees_members o' r dag) as (out & Hout & _ & _ & Hsound & Hdirect & _).
  assert (∀ item, item ∈ items →
            JobResult.Status (get r (FrontierItem.Job item)) ≠ JobStatusSuccess) as Hns.
  { intros item Hitem.
    destruct (proj1 (Hjobs (FrontierItem.Job item))) as [_ [? _]]; [|done].
    apply list_elem_of_fmap. by exists item. }
  exists items, out. split_and!; [done..| |].
  - intros item Hitem (_ & Hsucc%isSuccess_status & _)%Hsound. by apply (Hns item).
  - intros item dep Hitem Hdep Hkey Hsucc%isSuccess_status.
    apply (Hdirect dep (FrontierItem.Job item)); [done..|].
    apply isSuccess_false. by apply Hns.
Qed.

(** ** Nil entries and the aggregate predicates *)

Lemma IsReady_loop_panics (r : DAGResult) keys :
  StronglySorted String.le keys →
  IsReady_loop r keys = Panics ↔
  ∃ key, key ∈ keys ∧ index r key = None
         ∧ ∀ key', key' ∈ keys → String.le key' key → key' ≠ key →
             ∃ j, index r key' = Some j ∧ passes_IsReady (JobResult.Status j).
Proof.
  induction keys as [|key0 keys IH]; intros Hsorted; simpl.
  { split; [done|]. by intros (? & ?%elem_of_nil & _). }
  apply StronglySorted_inv in Hsorted as [Hsorted Hle].
  pose proof (proj1 (Forall_forall _ _) Hle) as Hle'.
  destruct (index r key0) as [j|] eqn:Hj.
  - destruct (JobResult.IsSkipped j || JobResult.IsInProgress j || JobResult.IsFailed j)
      eqn:Hstop.
    + split; [done|]. intros (key & [->|Hin]%elem_of_cons & Hnil & Hbefore); [congruence|].
      destruct (Hbefore key0) as (j' & Hj' & Hs & Hi & Hf); [left|by apply Hle'| |].
      { intros ->. congruence. }
      rewrite Hj in Hj'. injection Hj' as <-.
      unfold JobResult.IsSkipped, JobResult.IsInProgress, JobResult.IsFailed in Hstop.
      rewrite !bool_decide_eq_false_2 in Hstop by done. done.
    + rewrite (IH Hsorted). split.
      * intros (key & Hin & Hnil & Hbefore). exists key. split_and!; [by right|done|].
        intros key' [->|Hin']%elem_of_cons Hk Hne; [|by apply Hbefore].
        exists j. split; [done|].
        unfold JobResult.IsSkipped, JobResult.IsInProgress, JobResult.IsFailed in Hstop.
        apply orb_false_elim in Hstop as [[Hs Hi]%orb_false_elim Hf].
        apply bool_decide_eq_false in Hs, Hi, Hf. by split_and!.
      * intros (key & [->|Hin]%elem_of_cons & Hnil & Hbefore); [congruence|].
        exists key. split_and!; [done..|].
        intros key' Hin' Hk Hne. apply Hbefore; [by right|done..].
  - split; [|done]. intros _. exists key0. split_and!; [left|done|].
    intros key' [->|Hin]%elem_of_cons Hk Hne; [done|].
    destruct Hne. apply (anti_symm String.le); [done|by apply Hle'].
Qed.

(** X16. [IsReady] panics exactly when some key holds a nil pointer and
    every entry under a smaller key is a record that lets the scan go on
    (none of [Skipped], [InProgress], [Failed]): the scan is in key order,
    so an earlier stopping entry hides a later nil one, in every
    enumeration order of the map. *)
Theorem IsReady_panics (o : MapOrder) (r : DAGResult) :
  IsReady o r = Panics ↔
  ∃ key, r !! key = Some None
         ∧ ∀ key' p, r !! key' = Some p → String.le key' key → key' ≠ key →
             ∃ j, p = Some j
                  ∧ JobResult.Status j ≠ JobStatusSkipped
                  ∧ JobResult.Status j ≠ JobStatusInProgress
                  ∧ JobResult.Status j ≠ JobStatusFailed.
Proof.
  unfold IsReady. rewrite IsReady_loop_panics by apply sort_strings_sorted.
  split.
  - intros (key & [p Hkey]%elem_of_orderedJobs & Hnil & Hbefore).
    exists key. split.
    { unfold index in Hnil. rewrite Hkey in Hnil. simpl in Hnil. by subst p. }
    intros key' p' Hkey' Hle Hne.
    destruct (Hbefore key') as (j & Hj%index_lookup & Hs); [|done..|].
    { apply elem_of_orderedJobs. eauto. }
    exists j. split; [congruence|done].
  - intros (key & Hkey & Hbefore). exists key. split_and!.
    + apply elem_of_orderedJobs. eauto.
    + unfold index. by rewrite Hkey.
    + intros key' [p' Hkey']%elem_of_orderedJobs Hle Hne.
      destruct (Hbefore key' p' Hkey' Hle Hne) as (j & -> & Hs).
      exists j. by rewrite index_lookup.
Qed.

Lemma IsReady_loop_false (r : DAGResult) keys :
  IsReady_loop r keys = Returns false →
  ∃ key j, key ∈ keys ∧ index r key = Some j
           ∧ (JobResult.Status j = JobStatusSkipped
              ∨ JobResult.Status j = JobStatusInProgress
              ∨ JobResult.Status j = JobStatusFailed).
Proof.
  induction keys as [|key keys IH]; simpl; [done|].
  destruct (index r key) as [j|] eqn:Hj; [|done].
  unfold JobResult.IsSkipped, JobResult.IsInProgress, JobResult.IsFailed.
  repeat case_bool_decide; simpl.
  all: try (intros _; exists key, j; split_and!; [left|done|by auto]).
  intros (key' & j' & ? & ?)%IH. exists key', j'. split; [by right|done].
Qed.

(** X17. The check sequence of the README is exhaustive: when [IsReady]
    returns false on a result without nil entries, either
    [FirstInProgress] returns an [InProgress] entry, or it returns nil and
    some entry is [Skipped] or [Failed]. *)
Theorem not_ready_reason (o o' : MapOrder) (r : DAGResult) :
  allocated r → IsReady o r = Returns false →
  (∃ j, FirstInProgress o' r = Returns (Some j)
        ∧ JobResult.Status j = JobStatusInProgress)
  ∨ (FirstInProgress o' r = Returns None
     ∧ ∃ key j, r !! key = Some (Some j)
                ∧ (JobResult.Status j = JobStatusSkipped
                   ∨ JobResult.Status j = JobStatusFailed)).
Proof.
  intros Hr (key & j & _ & Hj%index_lookup & Hs)%IsReady_loop_false.
  destruct (FirstInProgress_loop_spec r (orderedJobs o' r))
    as [(k & j0 & Hret & _ & _ & Hs0 & _)|[Hret Hnone]].
  - apply Forall_forall. intros key' [p Hkey']%elem_of_orderedJobs.
    destruct (Hr key' p Hkey') as [j' ->]. exists j'. by apply index_lookup.
  - apply sort_strings_sorted.
  - left. by exists j0.
  - right. split; [done|]. exists key, j. split; [done|].
    destruct Hs as [?|[Hip|?]]; [by left| |by right].
    destruct (Hnone key j); [|by apply index_lookup|done].
    apply elem_of_orderedJobs. eauto.
Qed.

(** ** The status of one job *)


(** ** The further properties on the running example *)

Lemma result5_failed_allocated : allocated result5_failed.
Proof. apply (bool_decide_unpack _). by vm_compute. Qed.

Lemma result5_ok_allocated : allocated result5_ok.
Proof. apply (bool_decide_unpack _). by vm_compute. Qed.

Lemma dag5_no_timeout_name : timeoutError ∉ nodes dag5.
Proof. apply (bool_decide_unpack _). by vm_compute. Qed.

Example result5_failed_run :
  FirstError canonical_order result5_failed = Returns (Some "boom")
  ∧ FirstError reversed_order result5_failed = Returns (Some "boom")
  ∧ IsFailed canonical_order result5_failed = Returns true
  ∧ IsReady canonical_order result5_failed = Returns false
  ∧ item_view <$> default [] (Frontiers canonical_order result5_failed dag5)
    = [("C", JobStatusFailed, [], ["C"; "D"; "E"])]
  ∧ BoundarySubtrees canonical_order result5_failed dag5 = Some ["A"; "B"].
Proof. by vm_compute. Qed.

(** X3 on the run in which C failed. *)
Lemma FirstError_spec_witness :
  allocated result5_failed
  ∧ ∃ x,
      FirstError canonical_order result5_failed = Returns x
      ∧ (x = None ↔
         ∀ key j, result5_failed !! key = Some (Some j) → JobResult.Error j = None)
      ∧ (∀ e, x = Some e →
           ∃ key j, result5_failed !! key = Some (Some j) ∧ JobResult.Error j = Some e)
      ∧ (∀ key j e, result5_failed !! key = Some (Some j) → JobResult.Error j = Some e →
           (∀ key' j', result5_failed !! key' = Some (Some j') → key' ≠ key →
              JobResult.Error j' = None) →
           x = Some e).
Proof.
  split; [exact result5_failed_allocated|].
  exact (FirstError_spec canonical_order result5_failed result5_failed_allocated).
Defined.

(** X4 on the run in which C failed. *)
Lemma IsFailed_spec_witness :
  allocated result5_failed
  ∧ ∃ b,
      (∀ o', IsFailed o' result5_failed = Returns b)
      ∧ (b = true ↔
         ∃ key j, result5_failed !! key = Some (Some j)
                  ∧ JobResult.Status j = JobStatusFailed).
Proof.
  split; [exact result5_failed_allocated|].
  exact (IsFailed_spec canonical_order result5_failed result5_failed_allocated).
Defined.

(** X5 on the fully successful run. *)
Lemma IsSuccessful_implies_witness :
  IsSuccessful canonical_order result5_ok = Returns true
  ∧ IsSuccessful reversed_order result5_ok = Returns true
  ∧ IsNotSuccessful reversed_order result5_ok = Returns false
  ∧ IsReady reversed_order result5_ok = Returns true
  ∧ IsNotReady reversed_order result5_ok = Returns false
  ∧ IsFailed reversed_order result5_ok = Returns false
  ∧ FirstInProgress reversed_order result5_ok = Returns None.
Proof.
  split; [reflexivity|].
  exact (IsSuccessful_implies canonical_order reversed_order result5_ok eq_refl).
Defined.

(** X6 on the fully successful run, had it timed out. *)
Lemma TimeoutError_not_ready_witness :
  allocated result5_ok
  ∧ IsReady canonical_order (TimeoutError (λ _, "60") 60000000000%Z result5_ok)
    = Returns false
  ∧ IsNotReady canonical_order (TimeoutError (λ _, "60") 60000000000%Z result5_ok)
    = Returns true
  ∧ IsSuccessful canonical_order (TimeoutError (λ _, "60") 60000000000%Z result5_ok)
    = Returns false
  ∧ ∃ e, FirstError canonical_order (TimeoutError (λ _, "60") 60000000000%Z result5_ok)
         = Returns (Some e).
Proof.
  split; [exact result5_ok_allocated|].
  exact (TimeoutError_not_ready (λ _, "60") canonical_order 60000000000%Z result5_ok
           result5_ok_allocated).
Defined.

(** X7 on the running example. *)
Lemma TimeoutError_preserves_witness :
  (timeoutError ∉ nodes dag5)
  ∧ (∀ job, Blockers (TimeoutError (λ _, "60") 60000000000%Z result5) dag5 job
            = Blockers result5 dag5 job)
  ∧ BoundarySubtrees canonical_order (TimeoutError (λ _, "60") 60000000000%Z result5) dag5
    = BoundarySubtrees canonical_order result5 dag5
  ∧ fmap (M := list) item_view
      <$> Frontiers canonical_order (TimeoutError (λ _, "60") 60000000000%Z result5) dag5
    = fmap (M := list) item_view <$> Frontiers canonical_order result5 dag5.
Proof.
  split; [exact dag5_no_timeout_name|].
  exact (proj2 (proj2
           (TimeoutError_preserves (λ _, "60") canonical_order 60000000000%Z
              result5 dag5 dag5_no_timeout_name))).
Defined.

(** X10 on the running example. *)
Lemma BoundarySubtrees_order_independent_witness :
  acyclic dag5
  ∧ BoundarySubtrees canonical_order result5 dag5
    = BoundarySubtrees reversed_order result5 dag5.
Proof.
  split; [exact dag5_acyclic|].
  exact (BoundarySubtrees_order_independent canonical_order reversed_order
           result5 dag5 dag5_acyclic).
Defined.

(** X14 on the running example. *)
Lemma Frontiers_empty_iff_witness :
  acyclic dag5 ∧ closed dag5
  ∧ (Frontiers canonical_order result5_ok dag5 = Some [] ↔
     ∀ job, job ∈ dom dag5 → JobResult.Status (get result5_ok job) = JobStatusSuccess).
Proof.
  split; [exact dag5_acyclic|]. split; [exact dag5_closed|].
  exact (Frontiers_empty_iff canonical_order result5_ok dag5 dag5_acyclic dag5_closed).
Defined.

(** X17 on the run in which B is not ready. *)
Lemma not_ready_reason_witness :
  allocated result5
  ∧ IsReady canonical_order result5 = Returns false
  ∧ ((∃ j, FirstInProgress reversed_order result5 = Returns (Some j)
           ∧ JobResult.Status j = JobStatusInProgress)
     ∨ (FirstInProgress reversed_order result5 = Returns None
        ∧ ∃ key j, result5 !! key = Some (Some j)
                   ∧ (JobResult.Status j = JobStatusSkipped
                      ∨ JobResult.Status j = JobStatusFailed))).
Proof.
  split; [exact result5_allocated|]. split; [reflexivity|].
  exact (not_ready_reason canonical_order reversed_order result5 result5_allocated eq_refl).
Defined.
